(** * Huffman coding engine of [Chapter6-7/huffman-coding.cpp]

    A shallow embedding of [struct Node], [struct Compare] and
    [class HuffmanCoding] (members [generateCodes], [buildTree], [encode],
    [decode]), and the properties of the engine stated in the
    specification.

    Conventions of the embedding.
    - [char] is [ascii] (256 values); [std::string] is [list ascii].
    - [int] is a [Z] kept in the signed 32-bit range by [wrap_int].
    - [Node*] is [option Node]: [None] is the null pointer.  Nodes are
      never shared or mutated after construction, so a pointer is
      modelled by the subtree it points to.
    - [std::unordered_map] is a [gmap]; [operator[]] inserts a
      value-initialised entry when the key is absent.
    - A call either returns, or has no defined behaviour in C++
      ([top()] on an empty queue, a member access through a null or
      indeterminate pointer): type [outcome].
    - The two points the C++ standard leaves to the implementation, the
      iteration order of [unordered_map] (taken to depend on the content
      of the map) and the choice [priority_queue] makes among equal
      keys, are interfaces ([UnorderedIteration], [PriorityQueue]); the
      theorems hold for every implementation of them, and the runs at
      the end of the file use one. *)

From Stdlib Require Import ZArith Lia List Ascii String Permutation DecimalString.
From stdpp Require Import gmap strings list fin_maps.

Local Open Scope Z_scope.

(** ** Data model *)

(** [struct Node]. *)
#[warnings="-register-all"]
Inductive Node : Type :=
  mkNode (character : ascii) (frequency : Z) (left right : option Node).

Definition character (n : Node) : ascii :=
  match n with mkNode c _ _ _ => c end.
Definition frequency (n : Node) : Z :=
  match n with mkNode _ f _ _ => f end.
Definition left (n : Node) : option Node :=
  match n with mkNode _ _ l _ => l end.
Definition right (n : Node) : option Node :=
  match n with mkNode _ _ _ r => r end.

(** [bool isLeaf() { return !left && !right; }] *)
Definition isLeaf (n : Node) : bool :=
  match left n, right n with
  | None, None => true
  | _, _ => false
  end.

(** 32-bit two's complement [int]. *)
Definition wrap_int (z : Z) : Z := (z + 2 ^ 31) mod 2 ^ 32 - 2 ^ 31.

(** [new Node(c, f)]: both children default to [nullptr]. *)
Definition newLeaf (c : ascii) (f : Z) : Node := mkNode c f None None.

(** [new Node('\0', left->frequency + right->frequency, left, right)] *)
Definition newParent (l r : Node) : Node :=
  mkNode "000"%char (wrap_int (frequency l + frequency r)) (Some l) (Some r).

(** [struct Compare]: [a->frequency > b->frequency]. *)
Definition Compare (a b : Node) : bool := frequency b <? frequency a.

(** The result of a call: it returns a value, or its behaviour is not
    defined. *)
Inductive outcome (A : Type) : Type :=
  | Returns (a : A)
  | Undefined.
Arguments Returns {A} a.
Arguments Undefined {A}.

(** The private members of [class HuffmanCoding].  [root = None] is the
    indeterminate pointer of an object on which [buildTree] has not
    completed. *)
Record HuffmanCoding : Type := mkHuffmanCoding {
  root : option Node;
  codes : gmap ascii (list ascii);
  frequencies : gmap ascii Z
}.

(** [HuffmanCoding huffman;] *)
Definition fresh : HuffmanCoding :=
  {| root := None; codes := ∅; frequencies := ∅ |}.

(** String literals. *)
Definition chars (s : string) : list ascii := list_ascii_of_string s.

(** ** The standard-library interfaces the class relies on *)

(** [std::priority_queue<Node*, vector<Node*>, Compare>].  [pq_elements]
    is the content of the underlying container, up to order.  [top()]
    yields an element no other element is ordered before by [Compare],
    and [pop()] removes that element.  [pq_top] is [None] exactly on the
    empty queue, where C++ gives [top()] no meaning. *)
Class PriorityQueue (Q : Type) : Type := {
  pq_empty : Q;
  pq_push : Node -> Q -> Q;
  pq_top : Q -> option Node;
  pq_pop : Q -> Q;
  pq_size : Q -> nat;
  pq_elements : Q -> list Node;
  pq_elements_empty : pq_elements pq_empty = [];
  pq_elements_push : forall x q,
    Permutation (pq_elements (pq_push x q)) (x :: pq_elements q);
  pq_size_spec : forall q, pq_size q = length (pq_elements q);
  pq_top_empty : forall q, pq_elements q = [] -> pq_top q = None;
  pq_top_pop : forall q, pq_elements q <> [] ->
    exists x, pq_top q = Some x
      /\ Permutation (pq_elements q) (x :: pq_elements (pq_pop q))
      /\ Forall (fun y => Compare x y = false) (pq_elements q)
}.

(** Range-for over [std::unordered_map<char,int>]: every entry once, in
    an order the implementation chooses. *)
Class UnorderedIteration : Type := {
  iterate : gmap ascii Z -> list (ascii * Z);
  iterate_perm : forall m, Permutation (iterate m) (map_to_list m)
}.

(** ** The class *)

Section HuffmanCoding.

Context {Q : Type} `{PQ : PriorityQueue Q} {UI : UnorderedIteration}.

(** [generateCodes(node, code)] for a non-null [node]; the member [codes]
    is threaded through. *)
Fixpoint generateCodes_node (node : Node) (code : list ascii)
    (cs : gmap ascii (list ascii)) : gmap ascii (list ascii) :=
  match node with
  | mkNode c _ None None =>
      <[c := match code with [] => chars "0" | _ => code end]> cs
  | mkNode _ _ l r =>
      let cs1 := match l with
                 | Some ln => generateCodes_node ln (code ++ chars "0") cs
                 | None => cs
                 end in
      match r with
      | Some rn => generateCodes_node rn (code ++ chars "1") cs1
      | None => cs1
      end
  end.

(** [generateCodes(node, code)]: [if (!node) return;] *)
Definition generateCodes (node : option Node) (code : list ascii)
    (cs : gmap ascii (list ascii)) : gmap ascii (list ascii) :=
  match node with
  | None => cs
  | Some n => generateCodes_node n code cs
  end.

(** [frequencies[c]++] *)
Definition count_char (m : gmap ascii Z) (c : ascii) : gmap ascii Z :=
  <[c := wrap_int (default 0 (m !! c) + 1)]> m.

(** Step 1 of [buildTree]: [for (char c : text) frequencies[c]++;] *)
Definition count_frequencies (text : list ascii) (m : gmap ascii Z)
    : gmap ascii Z :=
  fold_left count_char text m.

(** [for (auto& p : frequencies) pq.push(new Node(p.first, p.second));] *)
Definition push_leaves (m : gmap ascii Z) : Q :=
  fold_left (fun q p => pq_push (newLeaf (fst p) (snd p)) q)
            (iterate m) pq_empty.

(** One iteration of the body of [while (pq.size() > 1)]. *)
Definition merge_step (pq : Q) : option Q :=
  match pq_top pq with
  | None => None
  | Some l =>
      let pq1 := pq_pop pq in
      match pq_top pq1 with
      | None => None
      | Some r =>
          let pq2 := pq_pop pq1 in
          Some (pq_push (newParent l r) pq2)
      end
  end.

(** [while (pq.size() > 1) { ... }].  Each iteration removes two nodes
    and adds one, so [pq_size pq] iterations always suffice
    ([merge_loop_terminates]); [None] is returned only when the
    iterations granted run out or [top()] is taken of an empty queue. *)
Fixpoint merge_loop (fuel : nat) (pq : Q) : option Q :=
  if (pq_size pq <=? 1)%nat then Some pq
  else match fuel with
       | O => None
       | S fuel' =>
           match merge_step pq with
           | None => None
           | Some pq' => merge_loop fuel' pq'
           end
       end.

(** [void buildTree(string text)] *)
Definition buildTree (text : list ascii) (h : HuffmanCoding)
    : outcome HuffmanCoding :=
  let fr := count_frequencies text (frequencies h) in
  let pq := push_leaves fr in
  match merge_loop (pq_size pq) pq with
  | None => Undefined
  | Some pq' =>
      match pq_top pq' with
      | None => Undefined
      | Some r =>
          Returns {| root := Some r;
                     codes := generateCodes (Some r) [] (codes h);
                     frequencies := fr |}
      end
  end.

(** [codes[c]]: the entry of [c], inserted empty when absent. *)
Definition codes_at (c : ascii) (cs : gmap ascii (list ascii))
    : list ascii * gmap ascii (list ascii) :=
  match cs !! c with
  | Some code => (code, cs)
  | None => ([], <[c := []]> cs)
  end.

(** The loop of [encode]: [for (char c : text) result += codes[c];] *)
Fixpoint encode_loop (text : list ascii) (result : list ascii)
    (cs : gmap ascii (list ascii))
    : list ascii * gmap ascii (list ascii) :=
  match text with
  | [] => (result, cs)
  | c :: text' =>
      let (code, cs') := codes_at c cs in
      encode_loop text' (result ++ code) cs'
  end.

(** [string encode(string text)]: the returned string and the object
    after the call. *)
Definition encode (text : list ascii) (h : HuffmanCoding)
    : list ascii * HuffmanCoding :=
  let (result, cs) := encode_loop text [] (codes h) in
  (result, {| root := root h; codes := cs; frequencies := frequencies h |}).

(** The loop of [decode].  [current] and [rt] are dereferenced, hence
    non-null; the pointer obtained from [current->left] or
    [current->right] may be null, and [current->isLeaf()] then has no
    defined behaviour. *)
Fixpoint decode_loop (rt current : Node) (encoded : list ascii)
    (result : list ascii) : outcome (list ascii) :=
  match encoded with
  | [] => Returns result
  | bit :: encoded' =>
      match (if Ascii.eqb bit "0" then left current else right current) with
      | None => Undefined
      | Some next =>
          if isLeaf next
          then decode_loop rt rt encoded' (result ++ [character next])
          else decode_loop rt next encoded' result
      end
  end.

(** [string decode(string encoded)].  On an object without a tree
    [Node* current = root] reads an indeterminate pointer. *)
Definition decode (encoded : list ascii) (h : HuffmanCoding)
    : outcome (list ascii) :=
  match root h with
  | None => Undefined
  | Some rt => decode_loop rt rt encoded []
  end.

End HuffmanCoding.

(** ** [printCodes] *)

(** Range-for over [std::unordered_map<char,string>]: every entry once,
    in an order the implementation chooses. *)
Class CodesIteration : Type := {
  iterate_codes : gmap ascii (list ascii) -> list (ascii * list ascii);
  iterate_codes_perm : forall m, Permutation (iterate_codes m) (map_to_list m)
}.

(** [frequencies[c]] read as a value: the entry of [c], inserted as 0
    when absent. *)
Definition frequencies_at (c : ascii) (m : gmap ascii Z) : Z * gmap ascii Z :=
  match m !! c with
  | Some f => (f, m)
  | None => (0, <[c := 0]> m)
  end.

(** [cout << n] for an [int]: decimal digits, '-' in front when
    negative. *)
Definition show_int (n : Z) : list ascii :=
  list_ascii_of_string (NilZero.string_of_int (Z.to_int n)).

(** [std::setw(w)] before an output: spaces in front up to [w]
    characters. *)
Definition setw (w : nat) (s : list ascii) : list ascii :=
  repeat " "%char (w - length s) ++ s.

Definition newline : ascii := "010"%char.

(** The three lines [printCodes] starts with. *)
Definition printCodes_header : list ascii :=
  [newline] ++ chars "Generated Huffman Codes:" ++ [newline]
  ++ chars "Character | Frequency | Code" ++ [newline]
  ++ chars "----------|-----------|--------" ++ [newline].

(** The line of one entry, when its count reads [f]. *)
Definition printCodes_line (f : Z) (p : ascii * list ascii) : list ascii :=
  chars "    " ++ [fst p] ++ chars "     |     "
  ++ setw 4 (show_int f) ++ chars "  |  " ++ snd p ++ [newline].

(** The body of the loop of [printCodes], on the output so far and the
    member [frequencies]. *)
Definition printCodes_step (acc : list ascii * gmap ascii Z)
    (p : ascii * list ascii) : list ascii * gmap ascii Z :=
  let (f, fr) := frequencies_at (fst p) (snd acc) in
  (fst acc ++ printCodes_line f p, fr).

Section PrintCodes.

Context {CI : CodesIteration}.

(** [void printCodes()]: what it writes to [cout], and the object after
    the call. *)
Definition printCodes (h : HuffmanCoding) : list ascii * HuffmanCoding :=
  let (out, fr) :=
    fold_left printCodes_step (iterate_codes (codes h))
              (printCodes_header, frequencies h) in
  (out, {| root := root h; codes := codes h; frequencies := fr |}).

End PrintCodes.

(** ** Vocabulary of the properties

    *** Trees and forests *)

(** The nodes [buildTree] allocates: a leaf, or a parent of two nodes. *)
Inductive full : Node -> Prop :=
  | full_leaf c f : full (mkNode c f None None)
  | full_parent c f l r :
      full l -> full r -> full (mkNode c f (Some l) (Some r)).

Definition under (b : ascii) (x : ascii * Z * list ascii)
    : ascii * Z * list ascii :=
  (fst (fst x), snd (fst x), b :: snd x).

(** The leaves below a node, left to right: symbol, frequency, and the
    path from the node ('0' for left, '1' for right). *)
Fixpoint leaves (n : Node) : list (ascii * Z * list ascii) :=
  match n with
  | mkNode c f None None => [(c, f, [])]
  | mkNode _ _ l r =>
      map (under "0") (match l with Some ln => leaves ln | None => [] end)
      ++ map (under "1") (match r with Some rn => leaves rn | None => [] end)
  end.

Definition leaf_symbol (x : ascii * Z * list ascii) : ascii := fst (fst x).
Definition leaf_frequency (x : ascii * Z * list ascii) : Z := snd (fst x).
Definition leaf_path (x : ascii * Z * list ascii) : list ascii := snd x.
Definition leaf_entry (x : ascii * Z * list ascii) : ascii * Z := fst x.

(** The code [generateCodes] stores for an accumulated path. *)
Definition stored_code (code : list ascii) : list ascii :=
  match code with [] => chars "0" | _ => code end.

(** Symbol and frequency of every leaf of a forest. *)
Definition forest_entries (es : list Node) : list (ascii * Z) :=
  flat_map (fun n => map leaf_entry (leaves n)) es.

(** What the queue holds while [buildTree] runs on the frequency table
    [m]: trees of leaves and two-child parents whose leaves are the
    entries of [m], each once. *)
Definition forest_of (m : gmap ascii Z) (es : list Node) : Prop :=
  Forall full es /\ Permutation (forest_entries es) (map_to_list m).

(** *** Counts and sums *)

Definition occurrences (c : ascii) (text : list ascii) : Z :=
  Z.of_nat (count_occ ascii_dec text c).

Definition total (l : list Z) : Z := fold_right Z.add 0 l.

(** Sum of the frequencies of the leaves below a node. *)
Definition weight (n : Node) : Z := total (map leaf_frequency (leaves n)).

(** Bits the leaves below a node cost: frequency times depth, summed. *)
Definition wpl (n : Node) : Z :=
  total (map (fun x => leaf_frequency x * Z.of_nat (length (leaf_path x)))
             (leaves n)).

(** *** The code table *)

(** The entries [generateCodes(node, code)] writes, in the order it
    writes them. *)
Definition code_entries (n : Node) (code : list ascii)
    : list (ascii * list ascii) :=
  map (fun x => (leaf_symbol x, stored_code (code ++ leaf_path x))) (leaves n).

Definition insert_all (l : list (ascii * list ascii))
    (cs : gmap ascii (list ascii)) : gmap ascii (list ascii) :=
  fold_left (fun m p => <[fst p := snd p]> m) l cs.

(** The code [encode] appends for a symbol: its entry, or nothing. *)
Definition code_of (cs : gmap ascii (list ascii)) (c : ascii) : list ascii :=
  default [] (cs !! c).

(** The table after [codes[c]] has been evaluated for each symbol of
    [text]. *)
Definition touched (text : list ascii) (cs : gmap ascii (list ascii))
    : gmap ascii (list ascii) :=
  fold_left (fun m c => snd (codes_at c m)) text cs.

(** The object [buildTree] leaves when the queue ends on the node [r]. *)
Definition built (text : list ascii) (h : HuffmanCoding) (r : Node)
    : HuffmanCoding :=
  {| root := Some r;
     codes := generateCodes (Some r) [] (codes h);
     frequencies := count_frequencies text (frequencies h) |}.

Definition proper_prefix (p q : list ascii) : Prop :=
  exists s, s <> [] /\ q = p ++ s.

(** No code of the table is a proper prefix of another. *)
Definition prefix_free (cs : gmap ascii (list ascii)) : Prop :=
  forall c1 c2 p1 p2,
    cs !! c1 = Some p1 -> cs !! c2 = Some p2 -> ~ proper_prefix p1 p2.

(** Different symbols have codes neither of which begins the other. *)
Definition uniquely_decodable (cs : gmap ascii (list ascii)) : Prop :=
  forall c1 c2 p1 p2 s,
    cs !! c1 = Some p1 -> cs !! c2 = Some p2 -> c1 <> c2 -> p2 <> p1 ++ s.

(** The entries of the code table at the symbols of the frequency
    table: those the last [buildTree] wrote. *)
Definition current_codes (h : HuffmanCoding) : gmap ascii (list ascii) :=
  filter (fun p => is_Some (frequencies h !! fst p)) (codes h).

(** The code table has no other entries.  This holds of a new object
    and is kept by [buildTree] and by [encode] on symbols of the
    frequency table ([codes_counted_fresh], [codes_counted_built],
    [codes_counted_encode]); [encode] on another symbol leaves an entry
    with the empty code behind. *)
Definition codes_counted (h : HuffmanCoding) : Prop :=
  forall c, is_Some (codes h !! c) -> is_Some (frequencies h !! c).

(** *** The object between calls *)

Section Settled.

Context {Q : Type} `{PQ : PriorityQueue Q} {UI : UnorderedIteration}.

(** The objects on which [buildTree] has returned and on which nothing
    but [encode] has been called since.  ([decode] has no effect on the
    object, so its calls need no case.) *)
Inductive settled : HuffmanCoding -> Prop :=
  | settled_buildTree text h h' :
      buildTree text h = Returns h' -> settled h'
  | settled_encode text h :
      settled h -> settled (snd (encode text h)).

End Settled.

(** *** The input alphabet of [decode] *)

(** The two characters of a code. *)
Definition is_bit (b : ascii) : Prop := b = "0"%char \/ b = "1"%char.

(** The only thing [decode] asks of a character is whether it is '0'. *)
Definition as_bit (c : ascii) : ascii :=
  if Ascii.eqb c "0" then "0"%char else "1"%char.

(** *** The walk of [decode] through the tree *)

(** A move of the walk. *)
Inductive move : Type := go_left | go_right.

(** The move a character stands for: '0' is a move to the left, every
    other character a move to the right. *)
Definition move_of (c : ascii) : move :=
  if decide (c = "0"%char) then go_left else go_right.

(** The child a move leads to; [None] is the null pointer. *)
Definition child (m : move) (n : Node) : option Node :=
  match m with
  | go_left => left n
  | go_right => right n
  end.

(** The outcome [o], after the symbols [s] have been emitted. *)
Definition emitted (s : list ascii) (o : outcome (list ascii))
    : outcome (list ascii) :=
  match o with
  | Returns decoded => Returns (s ++ decoded)
  | Undefined => Undefined
  end.

(** The walk through the tree [rt], from the node [current]: each move
    leads to a child; when the child is a leaf its symbol is emitted and
    the walk goes on from [rt].  A move to a null child has no
    outcome. *)
Fixpoint walk (rt current : Node) (moves : list move)
    : outcome (list ascii) :=
  match moves with
  | [] => Returns []
  | m :: moves' =>
      match child m current with
      | None => Undefined
      | Some next =>
          if isLeaf next
          then emitted [character next] (walk rt rt moves')
          else walk rt next moves'
      end
  end.

(** *** Code lengths: Kraft sums *)

Definition pow2 (n : nat) : Z := 2 ^ Z.of_nat n.

(** The Kraft sum of the depths [ds], scaled by [2 ^ M]. *)
Definition kraft (M : nat) (ds : list nat) : Z :=
  total (map (fun d => pow2 (M - d)) ds).

(** Depths no greater than [M] that some binary tree can give to its
    leaves. *)
Definition feasible (M : nat) (ds : list nat) : Prop :=
  Forall (fun d => (d <= M)%nat) ds /\ kraft M ds <= pow2 M.

(** Weighted length of an assignment of depths to weights. *)
Definition cost (L : list (Z * nat)) : Z :=
  total (map (fun p => fst p * Z.of_nat (snd p)) L).

(** The forest in the queue, for the length bound: cached frequencies
    are the weights, the weights add up to [W], and some assignment of
    depths within [M] to the trees costs, with what the trees already
    cost, no more than [C]. *)
Definition within (M : nat) (W C : Z) (es : list Node) : Prop :=
  Forall (fun n => frequency n = weight n /\ 0 <= weight n) es
  /\ total (map weight es) = W
  /\ exists L : list (Z * nat),
       Permutation (map fst L) (map weight es)
       /\ feasible M (map snd L)
       /\ total (map wpl es) + cost L <= C.

(** ** An implementation of the two interfaces

    The queue as an unordered list: [push] adds in front, [top] scans for
    the first node of least frequency and [pop] removes it. *)

Fixpoint pick_min (q : list Node) : option (Node * list Node) :=
  match q with
  | [] => None
  | x :: q' =>
      match pick_min q' with
      | None => Some (x, [])
      | Some (m, rest) =>
          if Compare x m then Some (m, x :: rest) else Some (x, q')
      end
  end.

#[export, refine] Instance list_queue : PriorityQueue (list Node) := {|
  pq_empty := [];
  pq_push := cons;
  pq_top q := fst <$> pick_min q;
  pq_pop q := from_option snd [] (pick_min q);
  pq_size := @length Node;
  pq_elements q := q
|}.
Proof.
  - reflexivity.
  - intros x q. reflexivity.
  - intros q. reflexivity.
  - intros q ->. reflexivity.
  - intros q Hq.
    assert (exists x rest, pick_min q = Some (x, rest)
              /\ Permutation q (x :: rest)
              /\ Forall (fun y => Compare x y = false) q) as (x & rest & E & Hp & Hm).
    { induction q as [|a q IH]; [congruence|]. clear Hq. simpl.
      destruct q as [|b q].
      - exists a, []. simpl. repeat split; [reflexivity|].
        constructor; [apply Z.ltb_irrefl|constructor].
      - destruct IH as (m & rest & -> & Hp & Hm); [discriminate|].
        unfold Compare in *. destruct (frequency m <? frequency a) eqn:E.
        + exists m, (a :: rest). repeat split.
          * rewrite Hp. apply perm_swap.
          * constructor; [apply Z.ltb_ge; apply Z.ltb_lt in E; lia|exact Hm].
        + exists a, (b :: q). repeat split; [reflexivity|].
          constructor; [apply Z.ltb_irrefl|].
          eapply Forall_impl; [exact Hm|]. simpl. intros y Hy.
          apply Z.ltb_ge in Hy, E. apply Z.ltb_ge. lia. }
    exists x. rewrite E. simpl. auto.
Defined.

(** Iteration in the order of [map_to_list]. *)
#[export] Instance canonical_iteration : UnorderedIteration := {|
  iterate := map_to_list;
  iterate_perm := fun m => Permutation_refl _
|}.

(** Iteration over the code table in the order of [map_to_list]. *)
#[export] Instance canonical_codes_iteration : CodesIteration := {|
  iterate_codes := map_to_list;
  iterate_codes_perm := fun m => Permutation_refl _
|}.

(** ** Objects for the runs of the class *)

(** The object a call returned. *)
Definition returned (o : outcome HuffmanCoding) : HuffmanCoding :=
  match o with
  | Returns h => h
  | Undefined => fresh
  end.

(** The object after [buildTree("abb")] on a new object. *)
Definition codec_abb : HuffmanCoding :=
  {| root := Some (newParent (newLeaf "a" 1) (newLeaf "b" 2));
     codes := <["b"%char := chars "1"]> (<["a"%char := chars "0"]> ∅);
     frequencies := <["b"%char := 2]> (<["a"%char := 1]> ∅) |}.

(** The object after [buildTree("abbcccc")] on a new object. *)
Definition codec_abbcccc : HuffmanCoding :=
  {| root := Some (newParent (newParent (newLeaf "a" 1) (newLeaf "b" 2))
                             (newLeaf "c" 4));
     codes := <["c"%char := chars "1"]>
                (<["b"%char := chars "01"]> (<["a"%char := chars "00"]> ∅));
     frequencies := <["c"%char := 4]> (<["b"%char := 2]> (<["a"%char := 1]> ∅)) |}.

(** The 256 values of [char], each once. *)
Definition all_bytes : list ascii := map ascii_of_nat (seq 0 256).

(** A text in which 'a' occurs once, 'b' twice, 'c' four times, and so
    on up to 'j'. *)
Definition doubling_text : list ascii :=
  flat_map (fun i => repeat (ascii_of_nat (97 + i)) (2 ^ i)) (seq 0 10).

(** * Properties *)

(** ** Trees *)

Lemma isLeaf_true n :
  isLeaf n = true <-> exists c f, n = mkNode c f None None.
Proof.
  destruct n as [c f [l|] [r|]]; simpl; split; try discriminate;
    try (intros (c' & f' & E); discriminate); eauto.
Qed.

Lemma isLeaf_parent c f l r : isLeaf (mkNode c f (Some l) (Some r)) = false.
Proof. reflexivity. Qed.

Lemma leaves_parent c f l r :
  leaves (mkNode c f (Some l) (Some r))
  = map (under "0") (leaves l) ++ map (under "1") (leaves r).
Proof. reflexivity. Qed.

Lemma leaves_newParent l r :
  leaves (newParent l r)
  = map (under "0") (leaves l) ++ map (under "1") (leaves r).
Proof. reflexivity. Qed.

Lemma leaf_entry_under b l : map leaf_entry (map (under b) l) = map leaf_entry l.
Proof. rewrite map_map. apply map_ext. intros [[c f] p]. reflexivity. Qed.

(** A leaf below a parent is below its left child, with '0' in front of
    its path, or below its right child, with '1'. *)
Ltac leaf_side Hx y Hy :=
  rewrite leaves_parent in Hx; apply in_app_or in Hx;
  destruct Hx as [Hx|Hx]; apply in_map_iff in Hx;
  destruct Hx as (y & <- & Hy).

Lemma full_leaves_nonempty n : full n -> leaves n <> [].
Proof.
  induction 1 as [c f|c f l r Hl IHl Hr IHr]; [discriminate|].
  rewrite leaves_parent. destruct (leaves l); [congruence|discriminate].
Qed.

Lemma full_isLeaf_path n x :
  full n -> In x (leaves n) -> (isLeaf n = true <-> leaf_path x = []).
Proof.
  intros Hn Hx. destruct Hn as [c f|c f l r Hl Hr].
  - simpl in Hx. destruct Hx as [<-|[]]. simpl. tauto.
  - rewrite isLeaf_parent. leaf_side Hx y Hy; simpl; split; discriminate.
Qed.

(** ** The merge loop *)

Section MergeLoop.

Context {Q : Type} `{PQ : PriorityQueue Q}.

Lemma Compare_false x y : Compare x y = false <-> frequency x <= frequency y.
Proof. unfold Compare. rewrite Z.ltb_ge. reflexivity. Qed.

(** One iteration takes two nodes of least frequency out of the queue
    and puts their parent in. *)
Lemma merge_step_spec (q : Q) :
  (2 <= length (pq_elements q))%nat ->
  exists l r rest q',
    merge_step q = Some q'
    /\ Permutation (pq_elements q) (l :: r :: rest)
    /\ Permutation (pq_elements q') (newParent l r :: rest)
    /\ Forall (fun y => frequency l <= frequency y) (r :: rest)
    /\ Forall (fun y => frequency r <= frequency y) rest.
Proof.
  intros Hlen. unfold merge_step.
  destruct (pq_top_pop q) as (l & -> & Hp1 & Hm1).
  { intros E. rewrite E in Hlen. simpl in Hlen. lia. }
  destruct (pq_top_pop (pq_pop q)) as (r & -> & Hp2 & Hm2).
  { intros E. rewrite E in Hp1. apply Permutation_length in Hp1.
    simpl in Hp1. lia. }
  eexists l, r, (pq_elements (pq_pop (pq_pop q))), _.
  split; [reflexivity|]. split; [|split; [|split]].
  - rewrite Hp1. constructor. exact Hp2.
  - apply pq_elements_push.
  - rewrite Hp1 in Hm1. apply Forall_cons in Hm1 as [_ Hm1].
    rewrite Hp2 in Hm1. eapply Forall_impl; [exact Hm1|].
    intros y. apply Compare_false.
  - rewrite Hp2 in Hm2. apply Forall_cons in Hm2 as [_ Hm2].
    eapply Forall_impl; [exact Hm2|]. intros y. apply Compare_false.
Qed.

(** The loop ends within [pq_size pq] iterations, and on one node unless
    the queue was empty from the start. *)
Lemma merge_loop_terminates (fuel : nat) (q : Q) :
  (pq_size q <= fuel)%nat ->
  exists q', merge_loop fuel q = Some q'
    /\ (pq_size q' <= 1)%nat
    /\ ((1 <= pq_size q)%nat -> pq_size q' = 1%nat).
Proof.
  revert q. induction fuel as [|fuel IH]; intros q Hq; simpl.
  - destruct (Nat.leb_spec (pq_size q) 1) as [H1|H1]; [|lia].
    exists q. repeat split; [assumption|]. lia.
  - destruct (Nat.leb_spec (pq_size q) 1) as [H1|H1].
    + exists q. repeat split; [assumption|]. lia.
    + rewrite pq_size_spec in H1, Hq.
      destruct (merge_step_spec q) as (l & r & rest & q1 & -> & Hp & Hp1 & _);
        [lia|].
      apply Permutation_length in Hp, Hp1. simpl in Hp, Hp1.
      destruct (IH q1) as (q' & -> & Hle & Hone).
      { rewrite pq_size_spec. lia. }
      exists q'. repeat split; [assumption|]. intros _. apply Hone.
      rewrite pq_size_spec. lia.
Qed.

(** A property of the forest in the queue that every merge of two
    least-frequency nodes preserves holds when the loop ends. *)
Lemma merge_loop_invariant (I : list Node -> Prop) :
  (forall es es', Permutation es es' -> I es -> I es') ->
  (forall l r rest,
      Forall (fun y => frequency l <= frequency y) (r :: rest) ->
      Forall (fun y => frequency r <= frequency y) rest ->
      I (l :: r :: rest) -> I (newParent l r :: rest)) ->
  forall fuel q q',
    I (pq_elements q) -> merge_loop fuel q = Some q' -> I (pq_elements q').
Proof.
  intros Hperm Hstep fuel. induction fuel as [|fuel IH]; intros q q' HI; simpl.
  - destruct (pq_size q <=? 1)%nat; [|discriminate]. intros [= <-]. exact HI.
  - destruct (Nat.leb_spec (pq_size q) 1) as [H1|H1].
    + intros [= <-]. exact HI.
    + rewrite pq_size_spec in H1.
      destruct (merge_step_spec q) as (l & r & rest & q1 & -> & Hp & Hp1 & Hl & Hr);
        [lia|].
      apply IH. eapply Hperm; [symmetry; exact Hp1|].
      apply Hstep; [assumption..|]. eapply Hperm; [exact Hp|exact HI].
Qed.

End MergeLoop.

(** ** Frequency counting *)

Lemma wrap_int_add_l z k : wrap_int (wrap_int z + k) = wrap_int (z + k).
Proof.
  unfold wrap_int.
  replace ((z + 2 ^ 31) mod 2 ^ 32 - 2 ^ 31 + k + 2 ^ 31)
    with ((z + 2 ^ 31) mod 2 ^ 32 + k) by lia.
  rewrite Zplus_mod_idemp_l. do 2 f_equal. lia.
Qed.

Lemma wrap_int_small z : - 2 ^ 31 <= z < 2 ^ 31 -> wrap_int z = z.
Proof. intros Hz. unfold wrap_int. rewrite Z.mod_small; lia. Qed.

Lemma count_char_lookup m c d :
  count_char m c !! d
  = if decide (c = d) then Some (wrap_int (default 0 (m !! c) + 1)) else m !! d.
Proof. unfold count_char. apply lookup_insert. Qed.

(** After the counting loop an entry holds its old value (0 when there
    was none) plus the occurrences of its symbol, as an [int]; symbols
    that do not occur keep their entry, or their absence. *)
Lemma count_frequencies_lookup text m c :
  count_frequencies text m !! c
  = if decide (c ∈ text)
    then Some (wrap_int (default 0 (m !! c) + occurrences c text))
    else m !! c.
Proof.
  unfold count_frequencies, occurrences. revert m.
  induction text as [|a text IH]; intros m.
  - destruct (decide (c ∈ [])) as [Hin|_]; [|reflexivity].
    apply not_elem_of_nil in Hin. contradiction.
  - cbn [fold_left count_occ]. rewrite IH, count_char_lookup. clear IH.
    destruct (decide (a = c)) as [->|Hac].
    + destruct (ascii_dec c c) as [_|]; [|congruence].
      destruct (decide (c ∈ c :: text)) as [_|Hn]; [|exfalso; apply Hn; constructor].
      destruct (decide (c ∈ text)) as [Hin|Hin]; cbn [default from_option id].
      * rewrite wrap_int_add_l. do 2 f_equal. lia.
      * assert (count_occ ascii_dec text c = 0%nat) as ->.
        { apply count_occ_not_In. rewrite <- list_elem_of_In. assumption. }
        reflexivity.
    + destruct (ascii_dec a c) as [|_]; [congruence|].
      destruct (decide (c ∈ text)) as [Hin|Hin];
        destruct (decide (c ∈ a :: text)) as [Hin'|Hin']; try reflexivity.
      * exfalso. apply Hin'. constructor. assumption.
      * exfalso. apply elem_of_cons in Hin' as [?|?]; congruence.
Qed.

Lemma count_frequencies_empty text m :
  count_frequencies text m = ∅ <-> text = [] /\ m = ∅.
Proof.
  split.
  - intros E. destruct text as [|a text]; [auto|].
    pose proof (count_frequencies_lookup (a :: text) m a) as H.
    rewrite E, lookup_empty in H.
    destruct (decide (a ∈ a :: text)) as [_|Hn]; [discriminate|].
    exfalso. apply Hn. constructor.
  - intros [-> ->]. reflexivity.
Qed.

(** ** The tree [buildTree] constructs *)

Lemma forest_entries_perm es es' :
  Permutation es es' -> Permutation (forest_entries es) (forest_entries es').
Proof.
  unfold forest_entries. induction 1; simpl.
  - reflexivity.
  - apply Permutation_app_head. assumption.
  - rewrite !app_assoc. apply Permutation_app_tail, Permutation_app_comm.
  - etransitivity; eassumption.
Qed.

Lemma forest_entries_merge l r rest :
  forest_entries (newParent l r :: rest) = forest_entries (l :: r :: rest).
Proof.
  unfold forest_entries. simpl. rewrite !map_app, !leaf_entry_under.
  rewrite app_assoc. reflexivity.
Qed.

Section BuildTree.

Context {Q : Type} `{PQ : PriorityQueue Q} {UI : UnorderedIteration}.

Lemma push_leaves_elements (m : gmap ascii Z) :
  Permutation (pq_elements (push_leaves m))
              (map (fun p => newLeaf (fst p) (snd p)) (map_to_list m)).
Proof.
  unfold push_leaves. rewrite <- (iterate_perm m).
  assert (forall l q,
    Permutation
      (pq_elements (fold_left (fun q p => pq_push (newLeaf (fst p) (snd p)) q) l q))
      (map (fun p => newLeaf (fst p) (snd p)) l ++ pq_elements q)) as Hgen.
  { induction l as [|p l IH]; intros q; simpl; [reflexivity|].
    rewrite IH, pq_elements_push. symmetry. apply Permutation_middle. }
  rewrite Hgen, pq_elements_empty, app_nil_r. reflexivity.
Qed.

Lemma forest_entries_newLeaf (l : list (ascii * Z)) :
  forest_entries (map (fun p => newLeaf (fst p) (snd p)) l) = l.
Proof.
  unfold forest_entries. induction l as [|[c f] l IH]; simpl; [reflexivity|].
  f_equal. exact IH.
Qed.

Lemma forest_of_push_leaves m : forest_of m (pq_elements (push_leaves m)).
Proof.
  split.
  - eapply Permutation_Forall; [symmetry; apply push_leaves_elements|].
    apply Forall_forall. intros n Hn. apply list_elem_of_In, in_map_iff in Hn.
    destruct Hn as (p & <- & _). constructor.
  - rewrite (forest_entries_perm _ _ (push_leaves_elements m)).
    rewrite forest_entries_newLeaf. reflexivity.
Qed.

Lemma forest_of_merge_loop m fuel (q q' : Q) :
  forest_of m (pq_elements q) -> merge_loop fuel q = Some q' ->
  forest_of m (pq_elements q').
Proof.
  apply (merge_loop_invariant (forest_of m)).
  - intros es es' Hp [Hf He]. split.
    + eapply Permutation_Forall; eassumption.
    + rewrite <- (forest_entries_perm _ _ Hp). exact He.
  - intros l r rest _ _ [Hf He]. split.
    + inversion Hf as [|? ? Hl Hf']; subst.
      inversion Hf' as [|? ? Hr Hrest]; subst.
      constructor; [constructor; assumption|assumption].
    + rewrite forest_entries_merge. exact He.
Qed.

Lemma pq_size_push_leaves m : pq_size (push_leaves m) = size m.
Proof.
  rewrite pq_size_spec, (Permutation_length (push_leaves_elements m)).
  rewrite length_map. apply length_map_to_list.
Qed.

End BuildTree.

(** ** Code generation *)

Lemma code_entries_parent c f l r code :
  code_entries (mkNode c f (Some l) (Some r)) code
  = code_entries l (code ++ chars "0") ++ code_entries r (code ++ chars "1").
Proof.
  unfold code_entries. rewrite leaves_parent, map_app, !map_map.
  f_equal; apply map_ext; intros [[a g] p]; unfold leaf_symbol, leaf_path;
    simpl; rewrite <- app_assoc; reflexivity.
Qed.

Lemma generateCodes_node_full n :
  full n ->
  forall code cs,
    generateCodes_node n code cs = insert_all (code_entries n code) cs.
Proof.
  induction 1 as [c f|c f l r Hl IHl Hr IHr]; intros code cs.
  - unfold code_entries, leaf_path. simpl. rewrite app_nil_r. reflexivity.
  - rewrite code_entries_parent. unfold insert_all. rewrite fold_left_app.
    simpl. rewrite IHl, IHr. reflexivity.
Qed.

Lemma insert_all_notin l cs c :
  ~ In c (map fst l) -> insert_all l cs !! c = cs !! c.
Proof.
  unfold insert_all. revert cs.
  induction l as [|[a p] l IH]; intros cs Hc; simpl in *; [reflexivity|].
  rewrite IH by tauto. apply lookup_insert_ne. tauto.
Qed.

Lemma insert_all_in l cs c p :
  List.NoDup (map fst l) -> In (c, p) l -> insert_all l cs !! c = Some p.
Proof.
  unfold insert_all. revert cs.
  induction l as [|[a q] l IH]; intros cs Hnd Hin; simpl in *; [contradiction|].
  inversion Hnd as [|? ? Ha Hnd']; subst.
  destruct Hin as [[= -> ->]|Hin].
  - fold (insert_all l (<[c:=p]> cs)). rewrite insert_all_notin by assumption.
    apply lookup_insert_eq.
  - apply IH; assumption.
Qed.

Lemma code_entries_symbols n code :
  map fst (code_entries n code) = map leaf_symbol (leaves n).
Proof. unfold code_entries. rewrite map_map. reflexivity. Qed.

(** ** Encoding *)

Lemma codes_at_fst c cs : fst (codes_at c cs) = code_of cs c.
Proof. unfold codes_at, code_of. destruct (cs !! c); reflexivity. Qed.

Lemma codes_at_lookup c cs d :
  snd (codes_at c cs) !! d
  = match cs !! d with
    | Some p => Some p
    | None => if decide (c = d) then Some [] else None
    end.
Proof.
  unfold codes_at. destruct (cs !! c) as [p|] eqn:E; simpl.
  - destruct (cs !! d) eqn:E'; [reflexivity|].
    destruct (decide (c = d)); [congruence|reflexivity].
  - rewrite lookup_insert. destruct (decide (c = d)) as [->|].
    + rewrite E. reflexivity.
    + destruct (cs !! d); reflexivity.
Qed.

Lemma code_of_codes_at c cs d : code_of (snd (codes_at c cs)) d = code_of cs d.
Proof.
  unfold code_of. rewrite codes_at_lookup.
  destruct (cs !! d); [reflexivity|]. destruct (decide (c = d)); reflexivity.
Qed.

Lemma encode_loop_spec text result cs :
  encode_loop text result cs
  = (result ++ flat_map (code_of cs) text, touched text cs).
Proof.
  unfold touched. revert result cs.
  induction text as [|c text IH]; intros result cs; simpl.
  - rewrite app_nil_r. reflexivity.
  - rewrite (surjective_pairing (codes_at c cs)), codes_at_fst, IH.
    rewrite <- app_assoc. f_equal. f_equal. f_equal.
    apply flat_map_ext. intros d. apply code_of_codes_at.
Qed.

Lemma touched_lookup text cs d :
  touched text cs !! d
  = match cs !! d with
    | Some p => Some p
    | None => if decide (d ∈ text) then Some [] else None
    end.
Proof.
  unfold touched. revert cs.
  induction text as [|c text IH]; intros cs; simpl.
  - destruct (cs !! d); [reflexivity|].
    destruct (decide (d ∈ [])) as [Hin|_]; [|reflexivity].
    apply not_elem_of_nil in Hin. contradiction.
  - rewrite IH, codes_at_lookup. destruct (cs !! d) as [p|]; [reflexivity|].
    destruct (decide (c = d)) as [->|Hne].
    + destruct (decide (d ∈ d :: text)) as [_|Hn]; [reflexivity|].
      exfalso. apply Hn. constructor.
    + destruct (decide (d ∈ text)) as [Hin|Hin];
        destruct (decide (d ∈ c :: text)) as [Hin'|Hin']; try reflexivity.
      * exfalso. apply Hin'. constructor. assumption.
      * exfalso. apply elem_of_cons in Hin' as [?|?]; congruence.
Qed.

Lemma touched_known text cs :
  Forall (fun c => is_Some (cs !! c)) text -> touched text cs = cs.
Proof.
  intros Hk. apply map_eq. intros d. rewrite touched_lookup.
  destruct (cs !! d) eqn:E; [reflexivity|].
  destruct (decide (d ∈ text)) as [Hin|_]; [|reflexivity].
  rewrite Forall_forall in Hk. destruct (Hk d Hin) as [p Hp]. congruence.
Qed.

Lemma encode_spec text h :
  encode text h
  = (flat_map (code_of (codes h)) text,
     {| root := root h; codes := touched text (codes h);
        frequencies := frequencies h |}).
Proof. unfold encode. rewrite encode_loop_spec. reflexivity. Qed.

(** ** Decoding *)

(** Walking the path of a leaf from above it emits the leaf's symbol and
    returns to the root. *)
Lemma decode_loop_symbol rt cur :
  full cur ->
  forall x rest result,
    isLeaf cur = false -> In x (leaves cur) ->
    decode_loop rt cur (leaf_path x ++ rest) result
    = decode_loop rt rt rest (result ++ [leaf_symbol x]).
Proof.
  induction 1 as [c f|c f l r Hl IHl Hr IHr]; intros x rest result Hleaf Hx;
    [discriminate|].
  leaf_side Hx y Hy; unfold leaf_path, leaf_symbol; simpl.
  - destruct (isLeaf l) eqn:El.
    + pose proof (proj1 (full_isLeaf_path l y Hl Hy) El) as Hp.
      apply isLeaf_true in El as (a & g & ->). simpl in Hy.
      destruct Hy as [<-|[]]. reflexivity.
    + apply IHl; assumption.
  - destruct (isLeaf r) eqn:Er.
    + pose proof (proj1 (full_isLeaf_path r y Hr Hy) Er) as Hp.
      apply isLeaf_true in Er as (a & g & ->). simpl in Hy.
      destruct Hy as [<-|[]]. reflexivity.
    + apply IHr; assumption.
Qed.

Lemma decode_loop_symbols rt :
  full rt -> isLeaf rt = false ->
  forall xs rest result,
    Forall (fun x => In x (leaves rt)) xs ->
    decode_loop rt rt (flat_map leaf_path xs ++ rest) result
    = decode_loop rt rt rest (result ++ map leaf_symbol xs).
Proof.
  intros Hf Hl xs. induction xs as [|x xs IH]; intros rest result Hxs; simpl.
  - rewrite app_nil_r. reflexivity.
  - inversion Hxs as [|? ? Hx Hxs']; subst.
    rewrite <- app_assoc, decode_loop_symbol by assumption.
    rewrite IH by assumption. rewrite <- app_assoc. reflexivity.
Qed.

(** Bits that stop strictly above a leaf emit nothing. *)
Lemma decode_loop_partial rt cur :
  full cur ->
  forall x p s result,
    In x (leaves cur) -> leaf_path x = p ++ s -> s <> [] ->
    decode_loop rt cur p result = Returns result.
Proof.
  induction 1 as [c f|c f l r Hl IHl Hr IHr]; intros x p s result Hx Hp Hs.
  - simpl in Hx. destruct Hx as [<-|[]]. unfold leaf_path in Hp. simpl in Hp.
    destruct p; [|discriminate]. reflexivity.
  - destruct p as [|b p]; [reflexivity|].
    leaf_side Hx y Hy;
      unfold leaf_path in Hp; simpl in Hp; injection Hp as <- Hp; simpl.
    + destruct (isLeaf l) eqn:El.
      * apply (full_isLeaf_path l y Hl Hy) in El. unfold leaf_path in El.
        rewrite El in Hp. destruct p; [|discriminate]. simpl in Hp. congruence.
      * eapply IHl; eassumption.
    + destruct (isLeaf r) eqn:Er.
      * apply (full_isLeaf_path r y Hr Hy) in Er. unfold leaf_path in Er.
        rewrite Er in Hp. destruct p; [|discriminate]. simpl in Hp. congruence.
      * eapply IHr; eassumption.
Qed.

(** On a tree of two-child parents whose root is a parent, [decode]
    never leaves the tree. *)
Lemma decode_loop_total rt :
  full rt -> isLeaf rt = false ->
  forall encoded cur result,
    full cur -> isLeaf cur = false ->
    exists decoded, decode_loop rt cur encoded result = Returns decoded.
Proof.
  intros Hf Hl encoded.
  induction encoded as [|bit encoded IH]; intros cur result Hc Hcl; simpl.
  - eauto.
  - destruct Hc as [c f|c f l r Hcl' Hcr]; [discriminate|]. simpl.
    destruct (Ascii.eqb bit "0").
    + destruct (isLeaf l) eqn:E; [apply IH|apply IH]; assumption.
    + destruct (isLeaf r) eqn:E; [apply IH|apply IH]; assumption.
Qed.

Lemma as_bit_eqb c : Ascii.eqb (as_bit c) "0" = Ascii.eqb c "0".
Proof. unfold as_bit. destruct (Ascii.eqb c "0") eqn:E; reflexivity. Qed.

Lemma decode_loop_as_bit rt encoded :
  forall cur result,
    decode_loop rt cur (map as_bit encoded) result
    = decode_loop rt cur encoded result.
Proof.
  induction encoded as [|bit encoded IH]; intros cur result; simpl;
    [reflexivity|].
  rewrite as_bit_eqb.
  destruct (if Ascii.eqb bit "0" then left cur else right cur) as [next|];
    [|reflexivity].
  destruct (isLeaf next); apply IH.
Qed.

Lemma move_of_eqb c :
  child (move_of c) = fun n => if Ascii.eqb c "0" then left n else right n.
Proof.
  unfold move_of. destruct (decide (c = "0"%char)) as [->|Hc]; [reflexivity|].
  apply Ascii.eqb_neq in Hc. rewrite Hc. reflexivity.
Qed.

Lemma emitted_app s1 s2 o : emitted s1 (emitted s2 o) = emitted (s1 ++ s2) o.
Proof. destruct o; simpl; [rewrite app_assoc|]; reflexivity. Qed.

(** The loop of [decode] is the walk along the moves its characters
    stand for. *)
Lemma decode_loop_walk rt encoded :
  forall cur result,
    decode_loop rt cur encoded result
    = emitted result (walk rt cur (map move_of encoded)).
Proof.
  induction encoded as [|bit encoded IH]; intros cur result; simpl.
  - rewrite app_nil_r. reflexivity.
  - rewrite move_of_eqb.
    destruct (if Ascii.eqb bit "0" then left cur else right cur) as [next|];
      [|reflexivity].
    destruct (isLeaf next); [|apply IH].
    rewrite IH, emitted_app. reflexivity.
Qed.

(** ** [buildTree] *)

Section BuildTreeResult.

Context {Q : Type} `{PQ : PriorityQueue Q} {UI : UnorderedIteration}.

Lemma pq_top_singleton (q : Q) r : pq_elements q = [r] -> pq_top q = Some r.
Proof.
  intros E. destruct (pq_top_pop q) as (x & Hx & Hp & _).
  { rewrite E. discriminate. }
  rewrite E in Hp. apply Permutation_length in Hp as Hlen. simpl in Hlen.
  destruct (pq_elements (pq_pop q)); [|discriminate].
  apply Permutation_singleton_inj in Hp. congruence.
Qed.

(** With a non-empty frequency table the loop ends on one node, which
    [buildTree] makes the root. *)
Lemma buildTree_loop text h :
  count_frequencies text (frequencies h) <> ∅ ->
  exists q' r,
    merge_loop (pq_size (push_leaves (count_frequencies text (frequencies h))))
               (push_leaves (count_frequencies text (frequencies h))) = Some q'
    /\ pq_elements q' = [r]
    /\ buildTree text h = Returns (built text h r).
Proof.
  intros Hne. unfold buildTree.
  set (fr := count_frequencies text (frequencies h)) in *.
  destruct (merge_loop_terminates (pq_size (push_leaves fr)) (push_leaves fr))
    as (q' & Hloop & _ & Hone); [lia|].
  rewrite Hloop.
  assert (pq_size q' = 1%nat) as Hsize.
  { apply Hone. rewrite pq_size_push_leaves.
    destruct (decide (size fr = 0%nat)) as [E|E]; [|lia].
    apply map_size_empty_iff in E. contradiction. }
  rewrite pq_size_spec in Hsize.
  destruct (pq_elements q') as [|r [|? ?]] eqn:Eq; try discriminate.
  rewrite (pq_top_singleton q' r Eq). exists q', r. auto.
Qed.

(** With a non-empty frequency table [buildTree] returns, and its tree
    has the entries of the table as leaves. *)
Lemma buildTree_returns text h :
  count_frequencies text (frequencies h) <> ∅ ->
  exists r,
    buildTree text h = Returns (built text h r)
    /\ full r
    /\ Permutation (map leaf_entry (leaves r))
                   (map_to_list (count_frequencies text (frequencies h))).
Proof.
  intros Hne. destruct (buildTree_loop text h Hne) as (q' & r & Hloop & Hel & Hb).
  pose proof (forest_of_merge_loop _ _ _ _ (forest_of_push_leaves _) Hloop)
    as [Hfull Hent].
  rewrite Hel in Hfull, Hent. exists r. split; [exact Hb|]. split.
  - inversion Hfull; assumption.
  - unfold forest_entries in Hent. simpl in Hent. rewrite app_nil_r in Hent.
    exact Hent.
Qed.

(** With an empty frequency table the queue is empty when
    [root = pq.top()] is reached. *)
Lemma buildTree_undefined text h :
  count_frequencies text (frequencies h) = ∅ -> buildTree text h = Undefined.
Proof.
  intros E. unfold buildTree. rewrite E.
  assert (pq_elements (push_leaves ∅) = []) as Hel.
  { apply Permutation_nil. symmetry. rewrite push_leaves_elements.
    rewrite map_to_list_empty. reflexivity. }
  assert (pq_size (push_leaves ∅) = 0%nat) as Hs
    by (rewrite pq_size_spec, Hel; reflexivity).
  rewrite Hs. simpl. rewrite Hs. simpl.
  rewrite (pq_top_empty _ Hel). reflexivity.
Qed.

End BuildTreeResult.

(** ** The code table after [buildTree] *)

Lemma leaf_symbol_entry l : map leaf_symbol l = map fst (map leaf_entry l).
Proof. rewrite map_map. reflexivity. Qed.

Lemma entries_NoDup n m :
  Permutation (map leaf_entry (leaves n)) (map_to_list m) ->
  List.NoDup (map leaf_symbol (leaves n)).
Proof.
  intros Hp. rewrite leaf_symbol_entry.
  eapply Permutation_NoDup; [symmetry; apply Permutation_map; exact Hp|].
  apply NoDup_ListNoDup, (NoDup_fst_map_to_list m).
Qed.

Lemma entries_lookup n (m : gmap ascii Z) c f :
  Permutation (map leaf_entry (leaves n)) (map_to_list m) ->
  (In (c, f) (map leaf_entry (leaves n)) <-> m !! c = Some f).
Proof.
  intros Hp. rewrite <- elem_of_map_to_list, <- list_elem_of_In.
  split; intros H; [rewrite <- Hp|rewrite Hp]; exact H.
Qed.

Lemma entries_symbols n (m : gmap ascii Z) c :
  Permutation (map leaf_entry (leaves n)) (map_to_list m) ->
  (In c (map leaf_symbol (leaves n)) <-> is_Some (m !! c)).
Proof.
  intros Hp. rewrite leaf_symbol_entry, in_map_iff. split.
  - intros ([c' f] & <- & Hin). exists f. apply (entries_lookup n m c' f Hp), Hin.
  - intros [f Hf]. exists (c, f). split; [reflexivity|].
    apply (entries_lookup n m c f Hp), Hf.
Qed.

Lemma generateCodes_leaf r cs x :
  full r -> List.NoDup (map leaf_symbol (leaves r)) -> In x (leaves r) ->
  generateCodes (Some r) [] cs !! leaf_symbol x
  = Some (stored_code (leaf_path x)).
Proof.
  intros Hf Hnd Hx. simpl. rewrite generateCodes_node_full by assumption.
  apply insert_all_in.
  - rewrite code_entries_symbols. assumption.
  - unfold code_entries. apply in_map_iff. exists x. split; [reflexivity|assumption].
Qed.

Lemma generateCodes_other r cs c :
  full r -> ~ In c (map leaf_symbol (leaves r)) ->
  generateCodes (Some r) [] cs !! c = cs !! c.
Proof.
  intros Hf Hc. simpl. rewrite generateCodes_node_full by assumption.
  apply insert_all_notin. rewrite code_entries_symbols. assumption.
Qed.

(** In a tree whose root is a parent every stored code is the path
    itself. *)
Lemma stored_code_path r x :
  full r -> isLeaf r = false -> In x (leaves r) ->
  stored_code (leaf_path x) = leaf_path x.
Proof.
  intros Hf Hl Hx. destruct (leaf_path x) eqn:E; [|reflexivity].
  apply (full_isLeaf_path r x Hf Hx) in E. congruence.
Qed.

(** Paths to different leaves: neither continues the other. *)
Lemma leaves_prefix_free n :
  full n ->
  forall x y s,
    In x (leaves n) -> In y (leaves n) -> leaf_path y = leaf_path x ++ s ->
    x = y.
Proof.
  induction 1 as [c f|c f l r Hl IHl Hr IHr]; intros x y s Hx Hy E.
  - simpl in Hx, Hy. destruct Hx as [<-|[]]. destruct Hy as [<-|[]]. reflexivity.
  - leaf_side Hx x' Hx'; leaf_side Hy y' Hy';
      unfold leaf_path in E; simpl in E; try discriminate;
      injection E as E; f_equal; [eapply IHl|eapply IHr]; eassumption.
Qed.

(** A tree with one leaf is that leaf. *)
Lemma full_single_leaf n x :
  full n -> leaves n = [x] ->
  n = mkNode (leaf_symbol x) (leaf_frequency x) None None.
Proof.
  intros Hf E. destruct Hf as [c f|c f l r Hl Hr].
  - simpl in E. injection E as <-. reflexivity.
  - rewrite leaves_parent in E.
    pose proof (full_leaves_nonempty l Hl). pose proof (full_leaves_nonempty r Hr).
    destruct (leaves l) as [|a [|b k]]; [congruence| |discriminate].
    destruct (leaves r); [congruence|discriminate].
Qed.

Lemma full_two_leaves n :
  full n -> (2 <= length (leaves n))%nat -> isLeaf n = false.
Proof. intros [c f|c f l r Hl Hr]; simpl; [lia|reflexivity]. Qed.

(** ** Properties of the engine *)

Section Properties.

Context {Q : Type} `{PQ : PriorityQueue Q} {UI : UnorderedIteration}.

Lemma buildTree_table text h :
  count_frequencies text (frequencies h) <> ∅ ->
  exists r,
    buildTree text h = Returns (built text h r)
    /\ full r
    /\ Permutation (map leaf_entry (leaves r))
                   (map_to_list (count_frequencies text (frequencies h)))
    /\ (forall x, In x (leaves r) ->
          codes (built text h r) !! leaf_symbol x
          = Some (stored_code (leaf_path x)))
    /\ (forall c, count_frequencies text (frequencies h) !! c = None ->
          codes (built text h r) !! c = codes h !! c).
Proof.
  intros Hne. destruct (buildTree_returns text h Hne) as (r & Hb & Hf & Hp).
  exists r. repeat split; try assumption.
  - intros x Hx. apply generateCodes_leaf; [assumption| |assumption].
    eapply entries_NoDup; eassumption.
  - intros c Hc. apply generateCodes_other; [assumption|].
    rewrite (entries_symbols r _ c Hp), Hc. intros [? ?]; discriminate.
Qed.

Lemma count_frequencies_keeps text m c :
  is_Some (m !! c) -> is_Some (count_frequencies text m !! c).
Proof.
  intros Hc. rewrite count_frequencies_lookup.
  destruct (decide (c ∈ text)); [eauto|assumption].
Qed.

Lemma count_frequencies_text text m c :
  c ∈ text -> is_Some (count_frequencies text m !! c).
Proof.
  intros Hc. rewrite count_frequencies_lookup.
  destruct (decide (c ∈ text)); [eauto|contradiction].
Qed.

Lemma count_frequencies_nonempty text m :
  text <> [] -> count_frequencies text m <> ∅.
Proof. intros Ht E. apply count_frequencies_empty in E as [? _]. contradiction. Qed.

Lemma built_codes_leaf text h r x :
  full r ->
  Permutation (map leaf_entry (leaves r))
              (map_to_list (count_frequencies text (frequencies h))) ->
  In x (leaves r) ->
  codes (built text h r) !! leaf_symbol x = Some (stored_code (leaf_path x)).
Proof.
  intros Hf Hp Hx. apply generateCodes_leaf; [assumption| |assumption].
  eapply entries_NoDup; eassumption.
Qed.

(** An entry of the new table at a symbol of the new frequency table is
    the code of a leaf of the new tree. *)
Lemma built_current_codes text h r :
  full r ->
  Permutation (map leaf_entry (leaves r))
              (map_to_list (count_frequencies text (frequencies h))) ->
  forall c p,
    codes (built text h r) !! c = Some p ->
    is_Some (count_frequencies text (frequencies h) !! c) ->
    exists x, In x (leaves r) /\ leaf_symbol x = c
              /\ p = stored_code (leaf_path x).
Proof.
  intros Hf Hp c p Hc Hfc.
  apply (entries_symbols r _ c Hp), in_map_iff in Hfc as (x & <- & Hx).
  exists x. repeat split; [assumption|].
  rewrite (built_codes_leaf text h r x Hf Hp Hx) in Hc. congruence.
Qed.

Lemma codes_counted_fresh : codes_counted fresh.
Proof. intros c [p Hp]. simpl in Hp. rewrite lookup_empty in Hp. discriminate. Qed.

Lemma codes_counted_built text h r :
  codes_counted h -> full r ->
  Permutation (map leaf_entry (leaves r))
              (map_to_list (count_frequencies text (frequencies h))) ->
  codes_counted (built text h r).
Proof.
  intros Hcc Hf Hp c Hc. cbn [frequencies built].
  destruct (count_frequencies text (frequencies h) !! c) as [f|] eqn:E; [eauto|].
  rewrite <- E. apply count_frequencies_keeps, Hcc.
  unfold built in Hc. cbn [codes] in Hc.
  rewrite generateCodes_other in Hc; [exact Hc|exact Hf|].
  rewrite (entries_symbols r _ c Hp), E. intros [? ?]; discriminate.
Qed.

Lemma codes_counted_encode text h :
  codes_counted h -> Forall (fun c => is_Some (frequencies h !! c)) text ->
  codes_counted (snd (encode text h)).
Proof.
  intros Hcc Ht c. rewrite encode_spec. cbn [snd codes frequencies].
  rewrite touched_lookup. destruct (codes h !! c) as [p|] eqn:E.
  - intros _. apply Hcc. rewrite E. eauto.
  - destruct (decide (c ∈ text)) as [Hin|_]; [|intros [? ?]; discriminate].
    intros _. rewrite Forall_forall in Ht. apply Ht, Hin.
Qed.

Lemma current_codes_lookup h c p :
  current_codes h !! c = Some p
  <-> codes h !! c = Some p /\ is_Some (frequencies h !! c).
Proof. unfold current_codes. rewrite map_lookup_filter_Some. reflexivity. Qed.

Lemma current_codes_counted h : codes_counted h -> current_codes h = codes h.
Proof.
  intros Hcc. apply map_eq. intros c.
  destruct (codes h !! c) as [p|] eqn:E.
  - apply current_codes_lookup. split; [exact E|]. apply Hcc. rewrite E. eauto.
  - destruct (current_codes h !! c) as [p|] eqn:E'; [|reflexivity].
    apply current_codes_lookup in E' as [E' _]. congruence.
Qed.

Lemma leaf_codes_prefix r x y s :
  full r -> In x (leaves r) -> In y (leaves r) ->
  stored_code (leaf_path y) = stored_code (leaf_path x) ++ s -> x = y.
Proof.
  intros Hf Hx Hy E. destruct (isLeaf r) eqn:El.
  - apply isLeaf_true in El as (c & f & ->). simpl in Hx, Hy.
    destruct Hx as [<-|[]]. destruct Hy as [<-|[]]. reflexivity.
  - rewrite !(stored_code_path r) in E by assumption.
    eapply leaves_prefix_free; eassumption.
Qed.

(** C6, as the code has it.  For every non-empty input [buildTree]
    returns, and the entries of the code table it writes, those of the
    symbols of the frequency table, are prefix-free: no code among them
    is a proper prefix of another, and no two symbols share a code.
    These entries are the whole table whenever the table had no entry
    outside the frequency table before the call, as on a new object; an
    entry outside it, such as the empty code [encode] leaves for an
    unknown symbol, stays in the table. *)
Theorem buildTree_prefix_free text h :
  text <> [] ->
  exists h', buildTree text h = Returns h'
             /\ prefix_free (current_codes h')
             /\ uniquely_decodable (current_codes h')
             /\ (codes_counted h -> current_codes h' = codes h')
             /\ (forall c, frequencies h' !! c = None ->
                   codes h' !! c = codes h !! c).
Proof.
  intros Ht.
  destruct (buildTree_table text h (count_frequencies_nonempty _ _ Ht))
    as (r & Hb & Hf & Hp & _ & Hout).
  exists (built text h r). split; [exact Hb|].
  assert (forall c p, current_codes (built text h r) !! c = Some p ->
            exists x, In x (leaves r) /\ leaf_symbol x = c
                      /\ p = stored_code (leaf_path x)) as Hleaf.
  { intros c p Hc. apply current_codes_lookup in Hc as [Hc Hfc].
    eapply built_current_codes; eassumption. }
  split; [|split; [|split]].
  - intros c1 c2 p1 p2 H1 H2 (s & Hs & E).
    apply Hleaf in H1 as (x & Hx & _ & ->). apply Hleaf in H2 as (y & Hy & _ & ->).
    assert (x = y) as <- by (eapply leaf_codes_prefix; eassumption).
    apply Hs. apply (app_inv_head (stored_code (leaf_path x))).
    rewrite app_nil_r. symmetry. exact E.
  - intros c1 c2 p1 p2 s H1 H2 Hne E.
    apply Hleaf in H1 as (x & Hx & <- & ->). apply Hleaf in H2 as (y & Hy & <- & ->).
    apply Hne. f_equal. eapply leaf_codes_prefix; eassumption.
  - intros Hcc. apply current_codes_counted.
    apply codes_counted_built; assumption.
  - exact Hout.
Qed.

(** C9, as the code has it.  [buildTree] adds to the state it finds: the
    frequency table keeps its entries and counts the symbols of the text
    on top of them; the tree is built from that whole table; the code
    table is overwritten at the symbols of the tree, so that it agrees
    with the tree there, and keeps every other entry.  Nothing is
    cleared. *)
Theorem buildTree_accumulates text h :
  count_frequencies text (frequencies h) <> ∅ ->
  exists r h',
    buildTree text h = Returns h' /\ root h' = Some r
    /\ (forall c,
          frequencies h' !! c
          = if decide (c ∈ text)
            then Some (wrap_int (default 0 (frequencies h !! c)
                                 + occurrences c text))
            else frequencies h !! c)
    /\ full r
    /\ Permutation (map leaf_entry (leaves r)) (map_to_list (frequencies h'))
    /\ (forall x, In x (leaves r) ->
          codes h' !! leaf_symbol x = Some (stored_code (leaf_path x)))
    /\ (forall c, frequencies h' !! c = None -> codes h' !! c = codes h !! c).
Proof.
  intros Hne.
  destruct (buildTree_table text h Hne) as (r & Hb & Hf & Hp & Hin & Hout).
  exists r, (built text h r). split; [exact Hb|]. split; [reflexivity|].
  split; [intros c; apply count_frequencies_lookup|]. auto.
Qed.

(** [buildTree] does not read the root, so on empty tables it does what
    it does on a new object. *)
Lemma buildTree_new_tables text h :
  frequencies h = ∅ -> codes h = ∅ -> buildTree text h = buildTree text fresh.
Proof. intros Hf Hc. unfold buildTree. rewrite Hf, Hc. reflexivity. Qed.

(** The tree [buildTree] ends on depends on the frequency table
    alone. *)
Lemma buildTree_root text h h' text0 h0 :
  buildTree text h = Returns h' ->
  count_frequencies text0 (frequencies h0)
  = count_frequencies text (frequencies h) ->
  exists r, root h' = Some r /\ buildTree text0 h0 = Returns (built text0 h0 r).
Proof.
  unfold buildTree. intros Hb E. rewrite E.
  destruct (merge_loop _ _) as [q'|]; [|discriminate].
  destruct (pq_top q') as [r|]; [|discriminate].
  injection Hb as <-. exists r. split; [reflexivity|].
  unfold built. rewrite E. reflexivity.
Qed.

Lemma buildTree_Returns_nonempty text h h' :
  buildTree text h = Returns h' -> count_frequencies text (frequencies h) <> ∅.
Proof.
  intros Hb E. rewrite (buildTree_undefined text h E) in Hb. discriminate.
Qed.

Lemma insert_all_in_any l m1 m2 c :
  In c (map fst l) -> insert_all l m1 !! c = insert_all l m2 !! c.
Proof.
  revert m1 m2. induction l as [|[b q] l IH]; intros m1 m2 Hin; [contradiction|].
  simpl in Hin. unfold insert_all. simpl.
  fold (insert_all l (<[b:=q]> m1)). fold (insert_all l (<[b:=q]> m2)).
  destruct (in_dec ascii_dec c (map fst l)) as [Hl|Hl].
  - apply IH. assumption.
  - rewrite !insert_all_notin by assumption.
    destruct Hin as [->|?]; [|contradiction].
    rewrite !lookup_insert_eq. reflexivity.
Qed.

Lemma insert_all_twice l cs : insert_all l (insert_all l cs) = insert_all l cs.
Proof.
  apply map_eq. intros c.
  destruct (in_dec ascii_dec c (map fst l)) as [Hin|Hin].
  - apply insert_all_in_any. assumption.
  - rewrite !insert_all_notin by assumption. reflexivity.
Qed.

(** [buildTree("")] on the object a [buildTree] that returned left. *)
Lemma buildTree_empty_text_built text h h' :
  buildTree text h = Returns h' -> buildTree [] h' = Returns h'.
Proof.
  intros Hb.
  pose proof (buildTree_Returns_nonempty text h h' Hb) as Hne.
  destruct (buildTree_table text h Hne) as (r & Hb' & Hf & _).
  rewrite Hb in Hb'. injection Hb' as ->.
  destruct (buildTree_root text h _ [] (built text h r) Hb) as (r' & Hr & ->).
  { reflexivity. }
  injection Hr as <-. f_equal. unfold built. cbn [codes frequencies root]. f_equal.
  simpl. rewrite !generateCodes_node_full by assumption. apply insert_all_twice.
Qed.

(** What [encode] adds to the code table, [buildTree("")] leaves
    alone. *)
Lemma buildTree_empty_text_encode text h :
  buildTree [] h = Returns h ->
  buildTree [] (snd (encode text h)) = Returns (snd (encode text h)).
Proof.
  intros Hb.
  pose proof (buildTree_Returns_nonempty [] h h Hb) as Hne.
  destruct (buildTree_table [] h Hne) as (r & Hb' & Hf & Hp & _).
  rewrite Hb in Hb'. injection Hb' as Eh.
  rewrite encode_spec. cbn [snd].
  set (h1 := {| root := root h; codes := touched text (codes h);
                frequencies := frequencies h |}).
  destruct (buildTree_root [] h h [] h1 Hb) as (r' & Hr & ->); [reflexivity|].
  rewrite Eh in Hr at 1. cbn [root built] in Hr. injection Hr as <-.
  f_equal. unfold built, h1. cbn [codes frequencies root count_frequencies fold_left].
  f_equal; [rewrite Eh; reflexivity|].
  apply (f_equal codes) in Eh. cbn [codes built generateCodes] in Eh.
  cbn [generateCodes]. rewrite generateCodes_node_full in * by assumption.
  apply map_eq. intros c.
  destruct (in_dec ascii_dec c (map fst (code_entries r []))) as [Hin|Hin].
  - rewrite (insert_all_in_any _ _ (codes h) c Hin), <- Eh.
    rewrite touched_lookup.
    destruct (codes h !! c) as [p|] eqn:E; [reflexivity|].
    exfalso. rewrite Eh in E.
    apply in_map_iff in Hin as ([c' p] & <- & Hin).
    rewrite (insert_all_in _ _ c' p) in E; [discriminate| |exact Hin].
    rewrite code_entries_symbols. eapply entries_NoDup; eassumption.
  - apply insert_all_notin, Hin.
Qed.

Lemma settled_buildTree_empty_text h : settled h -> buildTree [] h = Returns h.
Proof.
  induction 1 as [text h h' Hb|text h _ IH].
  - eapply buildTree_empty_text_built, Hb.
  - apply buildTree_empty_text_encode, IH.
Qed.

(** C3, as the code has it.  [buildTree] with a zero-length input on an
    object whose frequency table is not empty returns, with no error,
    and leaves the frequency table as it was; a second such call changes
    nothing more.  On an object on which [buildTree] has returned and
    nothing but [encode] (or [decode]) has been called since, the
    frequency table is not empty and the call leaves the whole object as
    it was: same frequency table, same tree, same code table. *)
Theorem buildTree_empty_text_again h :
  (frequencies h <> ∅ ->
     exists h',
       buildTree [] h = Returns h'
       /\ frequencies h' = frequencies h
       /\ buildTree [] h' = Returns h')
  /\ (settled h -> frequencies h <> ∅ /\ buildTree [] h = Returns h).
Proof.
  split.
  - intros Hne. destruct (buildTree_table [] h Hne) as (r & Hb & _).
    exists (built [] h r). split; [exact Hb|]. split; [reflexivity|].
    eapply buildTree_empty_text_built, Hb.
  - intros Hs. apply settled_buildTree_empty_text in Hs. split; [|exact Hs].
    apply (buildTree_Returns_nonempty [] h h Hs).
Qed.

(** Symbols of the frequency table, as leaves of the tree built from
    it: their table codes are the paths of the leaves. *)
Lemma symbols_as_leaves text h r syms :
  full r -> isLeaf r = false ->
  Permutation (map leaf_entry (leaves r))
              (map_to_list (count_frequencies text (frequencies h))) ->
  Forall (fun a => is_Some (count_frequencies text (frequencies h) !! a)) syms ->
  exists xs,
    Forall (fun x => In x (leaves r)) xs
    /\ map leaf_symbol xs = syms
    /\ flat_map leaf_path xs
       = flat_map (code_of (codes (built text h r))) syms.
Proof.
  intros Hf Hl Hp. induction 1 as [|a syms Ha _ (xs & Hxs & Hs & Hc)].
  - exists []. repeat split. constructor.
  - apply (entries_symbols r _ a Hp), in_map_iff in Ha as (x & <- & Hx).
    exists (x :: xs). split; [constructor; assumption|].
    cbn [map flat_map]. split; [f_equal; assumption|]. rewrite Hc. f_equal.
    unfold code_of. rewrite (built_codes_leaf text h r x Hf Hp Hx).
    cbn [default from_option id]. symmetry. eapply stored_code_path; eassumption.
Qed.

Lemma built_two_symbols text h r :
  (2 <= size (count_frequencies text (frequencies h)))%nat ->
  full r ->
  Permutation (map leaf_entry (leaves r))
              (map_to_list (count_frequencies text (frequencies h))) ->
  isLeaf r = false.
Proof.
  intros H2 Hf Hp. apply full_two_leaves; [assumption|].
  apply Permutation_length in Hp.
  rewrite length_map, length_map_to_list in Hp. lia.
Qed.

Lemma size_nonempty (m : gmap ascii Z) : (1 <= size m)%nat -> m <> ∅.
Proof. intros H E. rewrite E, map_size_empty in H. lia. Qed.

(** The round trip, when the frequency table has two symbols or more:
    [decode(encode(text))] returns [text], and [encode] leaves the
    object as it was. *)
Theorem roundtrip_two_or_more_symbols text h :
  (2 <= size (count_frequencies text (frequencies h)))%nat ->
  exists h' bits,
    buildTree text h = Returns h'
    /\ encode text h' = (bits, h')
    /\ decode bits h' = Returns text.
Proof.
  intros H2.
  destruct (buildTree_table text h) as (r & Hb & Hf & Hp & Hin & _);
    [apply size_nonempty; lia|].
  pose proof (built_two_symbols text h r H2 Hf Hp) as Hl.
  assert (Forall (fun a => is_Some (count_frequencies text (frequencies h) !! a))
                 text) as Hknown.
  { apply Forall_forall. intros a Ha. apply count_frequencies_text, Ha. }
  destruct (symbols_as_leaves text h r text Hf Hl Hp Hknown) as (xs & Hxs & Hs & Hc).
  exists (built text h r), (flat_map (code_of (codes (built text h r))) text).
  split; [exact Hb|]. split.
  - rewrite encode_spec, touched_known; [reflexivity|].
    apply Forall_forall. intros a Ha.
    rewrite Forall_forall in Hknown.
    apply (entries_symbols r _ a Hp), in_map_iff in Hknown as (x & <- & Hx);
      [|exact Ha].
    rewrite Hin by assumption. eauto.
  - unfold decode. cbn [root built]. rewrite <- Hc.
    rewrite <- (app_nil_r (flat_map leaf_path xs)).
    rewrite decode_loop_symbols by assumption. simpl. congruence.
Qed.

(** C5, as the code has it.  [decode] reports nothing: when the bits end
    strictly inside the code of a symbol, it returns the symbols decoded
    so far and drops the unfinished one. *)
Theorem decode_drops_partial_symbol text h :
  (2 <= size (count_frequencies text (frequencies h)))%nat ->
  exists h',
    buildTree text h = Returns h'
    /\ forall syms c p s,
         Forall (fun a => is_Some (frequencies h' !! a)) syms ->
         is_Some (frequencies h' !! c) ->
         codes h' !! c = Some (p ++ s) -> s <> [] ->
         decode (flat_map (code_of (codes h')) syms ++ p) h' = Returns syms.
Proof.
  intros H2.
  destruct (buildTree_table text h) as (r & Hb & Hf & Hp & Hin & _);
    [apply size_nonempty; lia|].
  pose proof (built_two_symbols text h r H2 Hf Hp) as Hl.
  exists (built text h r). split; [exact Hb|].
  intros syms c p s Hsyms Hc Hcode Hs.
  destruct (symbols_as_leaves text h r syms Hf Hl Hp Hsyms) as (xs & Hxs & Hsy & Hfl).
  apply (entries_symbols r _ c Hp), in_map_iff in Hc as (x & <- & Hx).
  rewrite Hin, (stored_code_path r x Hf Hl Hx) in Hcode by assumption.
  injection Hcode as Hcode.
  unfold decode. cbn [root built]. rewrite <- Hfl.
  rewrite decode_loop_symbols by assumption. simpl. rewrite Hsy.
  eapply decode_loop_partial; eassumption.
Qed.

(** A text of one repeated symbol, on a new object: the tree is a single
    leaf and its symbol gets the code "0". *)
Lemma buildTree_one_symbol c n :
  buildTree (repeat c (S n)) fresh
  = Returns {| root := Some (mkNode c (wrap_int (Z.of_nat (S n))) None None);
               codes := {[ c := chars "0" ]};
               frequencies := {[ c := wrap_int (Z.of_nat (S n)) ]} |}.
Proof.
  assert (count_frequencies (repeat c (S n)) (frequencies fresh)
          = {[ c := wrap_int (Z.of_nat (S n)) ]}) as Hfr.
  { apply map_eq. intros d. rewrite count_frequencies_lookup.
    cbn [frequencies fresh]. rewrite lookup_empty. cbn [default from_option].
    destruct (decide (d ∈ repeat c (S n))) as [Hd|Hd].
    - apply list_elem_of_In, repeat_spec in Hd. subst d.
      rewrite lookup_singleton_eq. unfold occurrences.
      rewrite count_occ_repeat_eq by reflexivity. reflexivity.
    - rewrite lookup_singleton_ne; [reflexivity|].
      intros <-. apply Hd. simpl. constructor. }
  destruct (buildTree_table (repeat c (S n)) fresh) as (r & Hb & Hf & Hp & _).
  { rewrite Hfr. apply insert_non_empty. }
  rewrite Hb. rewrite Hfr, map_to_list_singleton in Hp.
  destruct (leaves r) as [|x [|? ?]] eqn:El;
    try (apply Permutation_length in Hp; discriminate).
  apply Permutation_singleton_inj in Hp.
  pose proof (full_single_leaf r x Hf El) as Hr.
  unfold leaf_entry in Hp. unfold leaf_symbol, leaf_frequency in Hr.
  rewrite Hp in Hr. simpl in Hr. subst r.
  unfold built. rewrite Hfr. reflexivity.
Qed.

End Properties.

(** ** The single-symbol alphabet *)

(** With a leaf for root the first bit takes [decode] through a null
    child. *)
Lemma decode_leaf_root h c f bit encoded :
  root h = Some (mkNode c f None None) ->
  decode (bit :: encoded) h = Undefined.
Proof.
  intros Hr. unfold decode. rewrite Hr. simpl.
  destruct (Ascii.eqb bit "0"); reflexivity.
Qed.

Lemma flat_map_repeat_singleton (c d : ascii) (f : ascii -> list ascii) n :
  f c = [d] -> flat_map f (repeat c n) = repeat d n.
Proof. intros E. induction n as [|n IH]; simpl; [reflexivity|]. rewrite E, IH. reflexivity. Qed.

Section SingleSymbol.

Context {Q : Type} `{PQ : PriorityQueue Q} {UI : UnorderedIteration}.

(** C1 at a text of one repeated symbol: [buildTree] returns, [encode]
    returns one '0' per symbol, and [decode] of these bits has no
    defined result; it does not return the text. *)
Theorem roundtrip_one_symbol_undefined c n :
  exists h,
    buildTree (repeat c (S n)) fresh = Returns h
    /\ encode (repeat c (S n)) h = (repeat "0"%char (S n), h)
    /\ decode (repeat "0"%char (S n)) h = Undefined.
Proof.
  eexists. split; [apply buildTree_one_symbol|]. split.
  - rewrite encode_spec. cbn [codes root frequencies].
    rewrite (flat_map_repeat_singleton c "0"%char)
      by (unfold code_of; rewrite lookup_singleton_eq; reflexivity).
    rewrite touched_known; [reflexivity|].
    apply Forall_forall. intros a Ha.
    apply list_elem_of_In, repeat_spec in Ha. subst a.
    rewrite lookup_singleton_eq. eauto.
  - eapply decode_leaf_root. reflexivity.
Qed.

(** C2 at the input "aaaa": the code table is {a: "0"} and [encode]
    returns "0000", as specified, but [decode("0000")] has no defined
    result. *)
Theorem single_symbol_aaaa :
  exists h,
    buildTree (chars "aaaa") fresh = Returns h
    /\ codes h = {[ "a"%char := chars "0" ]}
    /\ encode (chars "aaaa") h = (chars "0000", h)
    /\ decode (chars "0000") h = Undefined.
Proof.
  eexists. split; [apply (buildTree_one_symbol "a" 3)|].
  split; [reflexivity|]. split.
  - rewrite encode_spec. cbn [codes root frequencies].
    rewrite touched_known; [reflexivity|].
    repeat constructor; rewrite lookup_singleton_eq; eauto.
  - eapply decode_leaf_root. reflexivity.
Qed.

End SingleSymbol.

(** ** [encode] and the state *)

(** C8, as the code has it.  [encode] leaves the tree and the frequency
    table as they were and keeps every entry of the code table; a symbol
    of the text that had no entry gets one, with the empty code.  When
    every symbol of the text has an entry the object is unchanged. *)
Theorem encode_state text h :
  root (snd (encode text h)) = root h
  /\ frequencies (snd (encode text h)) = frequencies h
  /\ (forall c,
        codes (snd (encode text h)) !! c
        = match codes h !! c with
          | Some p => Some p
          | None => if decide (c ∈ text) then Some [] else None
          end)
  /\ (Forall (fun c => is_Some (codes h !! c)) text -> snd (encode text h) = h).
Proof.
  rewrite encode_spec. cbn [snd root frequencies codes].
  repeat split.
  - intros c. apply touched_lookup.
  - intros Hk. rewrite touched_known by assumption. destruct h; reflexivity.
Qed.

(** C4, as the code has it.  [encode] reports nothing: a symbol with no
    entry in the code table adds no bit to the result, and the call
    leaves an entry with the empty code for it. *)
Theorem encode_absent_symbol text1 c text2 h :
  codes h !! c = None ->
  fst (encode (text1 ++ c :: text2) h) = fst (encode (text1 ++ text2) h)
  /\ codes (snd (encode (text1 ++ c :: text2) h)) !! c = Some [].
Proof.
  intros Hc. rewrite !encode_spec. cbn [fst snd codes]. split.
  - rewrite !flat_map_app. simpl. unfold code_of at 2. rewrite Hc. reflexivity.
  - rewrite touched_lookup, Hc.
    destruct (decide (c ∈ text1 ++ c :: text2)) as [_|Hn]; [reflexivity|].
    exfalso. apply Hn. apply elem_of_app. right. constructor.
Qed.

(** ** [decode] and its input alphabet *)

(** C10.  [decode] treats every character other than '0' as a move to
    the right.  Its result is that of the walk through the tree which
    goes left at each '0' and right at each other character, whatever
    the tree.  So any spelling of the path of a leaf, with anything but
    '0' where the path goes right, decodes to the symbol of that leaf;
    on a tree of two-child parents with a parent for root [decode]
    returns for every string of characters; and two inputs that agree
    once each character other than '0' is replaced by '1' are decoded
    alike, whatever the object. *)
Theorem decode_reads_nonzero_as_one h :
  (forall c, c <> "0"%char -> move_of c = go_right)
  /\ (forall rt encoded, root h = Some rt ->
        decode encoded h = walk rt rt (map move_of encoded))
  /\ (forall rt x encoded,
        root h = Some rt -> full rt -> isLeaf rt = false ->
        In x (leaves rt) -> map as_bit encoded = leaf_path x ->
        decode encoded h = Returns [leaf_symbol x])
  /\ (forall rt encoded,
        root h = Some rt -> full rt -> isLeaf rt = false ->
        exists decoded, decode encoded h = Returns decoded)
  /\ (forall encoded1 encoded2,
        map as_bit encoded1 = map as_bit encoded2 ->
        decode encoded1 h = decode encoded2 h).
Proof.
  split; [|split; [|split; [|split]]].
  - intros c Hc. unfold move_of. destruct (decide (c = "0"%char)); congruence.
  - intros rt encoded Hr. unfold decode. rewrite Hr, decode_loop_walk.
    destruct (walk rt rt (map move_of encoded)); reflexivity.
  - intros rt x encoded Hr Hf Hl Hx E. unfold decode. rewrite Hr.
    rewrite <- decode_loop_as_bit, E, <- (app_nil_r (leaf_path x)).
    rewrite decode_loop_symbol by assumption. reflexivity.
  - intros rt encoded Hr Hf Hl. unfold decode. rewrite Hr.
    apply decode_loop_total; assumption.
  - intros encoded1 encoded2 E. unfold decode.
    destruct (root h) as [rt|]; [|reflexivity].
    rewrite <- (decode_loop_as_bit rt encoded1), <- (decode_loop_as_bit rt encoded2).
    rewrite E. reflexivity.
Qed.

(** ** Code lengths: Kraft sums and the exchange step *)

Lemma total_app l1 l2 : total (l1 ++ l2) = total l1 + total l2.
Proof. unfold total. induction l1 as [|a l1 IH]; simpl; lia. Qed.

Lemma total_perm l l' : Permutation l l' -> total l = total l'.
Proof. unfold total. induction 1; simpl; lia. Qed.

Lemma kraft_perm M ds ds' : Permutation ds ds' -> kraft M ds = kraft M ds'.
Proof. intros Hp. apply total_perm, Permutation_map, Hp. Qed.

Lemma cost_perm L L' : Permutation L L' -> cost L = cost L'.
Proof. intros Hp. apply total_perm, Permutation_map, Hp. Qed.

Lemma kraft_cons M d ds : kraft M (d :: ds) = pow2 (M - d) + kraft M ds.
Proof. reflexivity. Qed.

Lemma cost_cons w d L : cost ((w, d) :: L) = w * Z.of_nat d + cost L.
Proof. reflexivity. Qed.

Lemma pow2_pos n : 0 < pow2 n.
Proof. unfold pow2. apply Z.pow_pos_nonneg; lia. Qed.

Lemma pow2_add n k : pow2 (n + k) = pow2 n * pow2 k.
Proof. unfold pow2. rewrite Nat2Z.inj_add, Z.pow_add_r by lia. reflexivity. Qed.

Lemma pow2_S n : pow2 (S n) = 2 * pow2 n.
Proof. replace (S n) with (1 + n)%nat by lia. rewrite pow2_add. reflexivity. Qed.

(** Depths no greater than [D] give a Kraft sum that is a multiple of
    [2 ^ (M - D)]. *)
Lemma kraft_multiple M D ds :
  (D <= M)%nat -> Forall (fun d => (d <= D)%nat) ds ->
  exists m, 0 <= m /\ kraft M ds = pow2 (M - D) * m.
Proof.
  intros HD. induction 1 as [|d ds Hd _ (m & Hm & E)].
  - exists 0. split; [lia|]. unfold kraft. simpl. lia.
  - exists (pow2 (D - d) + m). rewrite kraft_cons, E.
    replace (M - d)%nat with ((M - D) + (D - d))%nat by lia.
    rewrite pow2_add. pose proof (pow2_pos (D - d)). split; lia.
Qed.

(** Among weights no smaller than [w], the greatest depth can be given
    to [w] without raising the cost: the depths are permuted. *)
Lemma deepest_to_lightest w d (R : list (Z * nat)) :
  Forall (fun p => w <= fst p) R ->
  exists d' R',
    map fst R' = map fst R
    /\ Permutation (d' :: map snd R') (d :: map snd R)
    /\ Forall (fun e => (e <= d')%nat) (map snd R')
    /\ w * Z.of_nat d' + cost R' <= w * Z.of_nat d + cost R.
Proof.
  induction 1 as [|[w1 d1] R Hw _ (d' & R' & Hf & Hp & Hmax & Hc)].
  - exists d, []. split; [reflexivity|]. split; [reflexivity|].
    split; [constructor|lia].
  - simpl in Hw. destruct (le_lt_dec d1 d') as [Hle|Hlt].
    + exists d', ((w1, d1) :: R'). simpl. repeat split.
      * f_equal. exact Hf.
      * rewrite perm_swap, Hp. apply perm_swap.
      * constructor; assumption.
      * rewrite !cost_cons. lia.
    + exists d1, ((w1, d') :: R'). simpl. repeat split.
      * f_equal. exact Hf.
      * rewrite Hp. apply perm_swap.
      * constructor; [lia|].
        eapply Forall_impl; [exact Hmax|]. simpl. intros; lia.
      * rewrite !cost_cons. nia.
Qed.

(** The exchange step.  Take depths for the weights [x], [y] and those
    of [R], with [x] and [y] the two least.  Then the weights [x + y]
    and those of [R] have depths whose cost, with [x + y] added, is no
    greater. *)
Lemma merge_two_lightest M x y dx dy (R : list (Z * nat)) :
  0 <= x -> x <= y -> Forall (fun p => y <= fst p) R ->
  feasible M (dx :: dy :: map snd R) ->
  exists d R',
    map fst R' = map fst R
    /\ feasible M (d :: map snd R')
    /\ (x + y) + cost ((x + y, d) :: R') <= cost ((x, dx) :: (y, dy) :: R).
Proof.
  intros Hx Hxy HR [Hb Hk].
  destruct (deepest_to_lightest x dx ((y, dy) :: R))
    as (dx' & R1 & Hf1 & Hp1 & Hmax1 & Hc1).
  { constructor; [exact Hxy|]. eapply Forall_impl; [exact HR|]. simpl. intros; lia. }
  destruct R1 as [|[y' dy1] R1]; [discriminate|].
  simpl in Hf1. injection Hf1 as -> Hf1.
  destruct (deepest_to_lightest y dy1 R1) as (dy' & R2 & Hf2 & Hp2 & Hmax2 & Hc2).
  { apply (List.Forall_map fst (fun w => y <= w)). rewrite Hf1.
    apply List.Forall_map. exact HR. }
  assert (Permutation (dx' :: dy' :: map snd R2) (dx :: dy :: map snd R)) as Hp.
  { rewrite <- Hp1. simpl. constructor. exact Hp2. }
  assert (dy' <= dx')%nat as Hdd.
  { simpl in Hmax1. rewrite <- Hp2 in Hmax1.
    apply Forall_cons in Hmax1 as [H _]. exact H. }
  assert (Forall (fun d => (d <= M)%nat) (dx' :: dy' :: map snd R2)) as Hb'
    by (rewrite Hp; exact Hb).
  assert (kraft M (dx' :: dy' :: map snd R2) <= pow2 M) as Hk'
    by (rewrite (kraft_perm _ _ _ Hp); exact Hk).
  apply Forall_cons in Hb' as [HdxM Hb']. apply Forall_cons in Hb' as [HdyM Hb2].
  destruct (kraft_multiple M dy' (map snd R2)) as (m & Hm & Em); [lia|exact Hmax2|].
  rewrite !kraft_cons, Em in Hk'.
  pose proof (pow2_pos (M - dx')) as Hpx. pose proof (pow2_pos (M - dy')) as Hpy.
  assert (pow2 M = pow2 (M - dy') * pow2 dy') as EM
    by (rewrite <- pow2_add; f_equal; lia).
  assert (m + 2 <= pow2 dy') as Hm2 by nia.
  assert (1 <= dy')%nat as Hdy1.
  { destruct dy' as [|k]; [|lia]. unfold pow2 in Hm2. simpl in Hm2. lia. }
  exists (dy' - 1)%nat, R2. split; [congruence|]. split; [split|].
  - constructor; [lia|exact Hb2].
  - rewrite kraft_cons, Em.
    replace (M - (dy' - 1))%nat with (S (M - dy')) by lia.
    rewrite pow2_S. nia.
  - rewrite !cost_cons in *.
    replace (Z.of_nat (dy' - 1)) with (Z.of_nat dy' - 1) by lia.
    assert (x * Z.of_nat dy' <= x * Z.of_nat dx') by nia.
    lia.
Qed.

(** ** Weights and weighted path lengths *)

Lemma weight_newLeaf c f : weight (newLeaf c f) = f.
Proof. unfold weight, total. simpl. unfold leaf_frequency. simpl. lia. Qed.

Lemma wpl_newLeaf c f : wpl (newLeaf c f) = 0.
Proof. unfold wpl, total. simpl. lia. Qed.

Lemma weight_under b l :
  total (map leaf_frequency (map (under b) l)) = total (map leaf_frequency l).
Proof. rewrite map_map. reflexivity. Qed.

Lemma wpl_under b l :
  total (map (fun x => leaf_frequency x * Z.of_nat (length (leaf_path x)))
             (map (under b) l))
  = total (map (fun x => leaf_frequency x * Z.of_nat (length (leaf_path x))) l)
    + total (map leaf_frequency l).
Proof.
  induction l as [|[[c f] p] l IH]; [reflexivity|].
  cbn [map total fold_right] in *. fold (total (map leaf_frequency l)).
  unfold total in *. rewrite IH. unfold leaf_frequency, leaf_path, under.
  cbn [fst snd length]. lia.
Qed.

Lemma weight_newParent l r : weight (newParent l r) = weight l + weight r.
Proof.
  unfold weight. rewrite leaves_newParent, map_app, total_app, !weight_under.
  reflexivity.
Qed.

Lemma wpl_newParent l r :
  wpl (newParent l r) = wpl l + weight l + (wpl r + weight r).
Proof.
  unfold wpl, weight. rewrite leaves_newParent, map_app, total_app, !wpl_under.
  reflexivity.
Qed.

Lemma feasible_perm M ds ds' : Permutation ds ds' -> feasible M ds -> feasible M ds'.
Proof.
  intros Hp [Hb Hk]. split; [rewrite <- Hp; exact Hb|].
  rewrite <- (kraft_perm M _ _ Hp). exact Hk.
Qed.

Lemma within_perm M W C es es' :
  Permutation es es' -> within M W C es -> within M W C es'.
Proof.
  intros Hp (Hf & Hw & L & HL & Hfe & Hc). split; [|split].
  - rewrite <- Hp. exact Hf.
  - rewrite <- Hw. symmetry. apply total_perm, Permutation_map, Hp.
  - exists L. split; [|split; [exact Hfe|]].
    + rewrite HL. apply Permutation_map, Hp.
    + rewrite <- (total_perm _ _ (Permutation_map wpl Hp)). exact Hc.
Qed.

Lemma total_nonneg l : Forall (fun z => 0 <= z) l -> 0 <= total l.
Proof. unfold total. induction 1; simpl; lia. Qed.

Lemma within_merge M W C l r rest :
  W < 2 ^ 31 ->
  Forall (fun y => frequency l <= frequency y) (r :: rest) ->
  Forall (fun y => frequency r <= frequency y) rest ->
  within M W C (l :: r :: rest) -> within M W C (newParent l r :: rest).
Proof.
  intros HW Hl Hr (Hf & Hw & L & HL & Hfe & Hc).
  apply Forall_cons in Hf as [[Efl Hl0] Hf]. apply Forall_cons in Hf as [[Efr Hr0] Hf].
  apply Forall_cons in Hl as [Hlr _].
  cbn [map total fold_right] in Hw. fold (total (map weight rest)) in Hw.
  assert (0 <= total (map weight rest)) as Hrest0.
  { apply total_nonneg, List.Forall_map. eapply Forall_impl; [exact Hf|].
    simpl. intros n [_ H]. exact H. }
  split; [|split].
  - constructor; [|exact Hf]. rewrite weight_newParent. split; [|lia].
    unfold newParent. cbn [frequency]. rewrite Efl, Efr.
    apply wrap_int_small. lia.
  - cbn [map total fold_right]. fold (total (map weight rest)).
    rewrite weight_newParent. lia.
  - symmetry in HL. cbn [map] in HL.
    apply Permutation_map_inv in HL as (L3 & E3 & HL3).
    destruct L3 as [|[x dx] [|[y dy] R]]; try discriminate.
    cbn [map fst] in E3. injection E3 as <- <- ER.
    destruct (merge_two_lightest M (weight l) (weight r) dx dy R)
      as (d & R' & HfR & Hfe' & Hc').
    + exact Hl0.
    + lia.
    + apply (List.Forall_map fst (fun w => weight r <= w)). rewrite <- ER.
      apply List.Forall_map. rewrite Forall_forall in Hr, Hf |- *.
      intros n Hn. destruct (Hf n Hn) as [<- _]. rewrite <- Efr. auto.
    + apply (feasible_perm M (map snd L)); [|exact Hfe].
      apply (Permutation_map snd) in HL3. exact HL3.
    + exists ((weight l + weight r, d) :: R'). split; [|split; [exact Hfe'|]].
      * cbn [map fst]. rewrite weight_newParent, HfR, ER. reflexivity.
      * cbn [map total fold_right] in *. fold (total (map wpl rest)) in *.
        rewrite wpl_newParent. rewrite (cost_perm _ _ HL3) in Hc. lia.
Qed.

Lemma total_map_const0 {A} (l : list A) : total (map (fun _ => 0) l) = 0.
Proof. unfold total. induction l; simpl; lia. Qed.

Lemma total_map_const1 {A} (l : list A) :
  total (map (fun _ => 1) l) = Z.of_nat (length l).
Proof. unfold total. induction l; simpl in *; lia. Qed.

Lemma total_map_add {A} (f g : A -> Z) l :
  total (map (fun k => f k + g k) l) = total (map f l) + total (map g l).
Proof. unfold total. induction l; simpl; lia. Qed.

Lemma total_map_ext_in {A} (f g : A -> Z) l :
  (forall x, In x l -> f x = g x) -> total (map f l) = total (map g l).
Proof. intros H. f_equal. apply map_ext_in, H. Qed.

Lemma total_indicator (g : ascii -> Z) a keys :
  List.NoDup keys -> In a keys ->
  total (map (fun k => (if ascii_dec a k then 1 else 0) * g k) keys) = g a.
Proof.
  induction 1 as [|k keys Hk Hnd IH]; intros Ha; [contradiction|].
  cbn [map total fold_right]. fold (total (map (fun k => (if ascii_dec a k then 1 else 0) * g k) keys)).
  destruct Ha as [->|Ha].
  - destruct (ascii_dec a a) as [_|]; [|congruence].
    rewrite (total_map_ext_in _ (fun _ => 0)), total_map_const0; [lia|].
    intros x Hx. destruct (ascii_dec a x) as [->|_]; [contradiction|lia].
  - rewrite IH by assumption.
    destruct (ascii_dec a k) as [->|_]; [contradiction|lia].
Qed.

(** A sum over the symbols of a text, regrouped by symbol. *)
Lemma total_by_symbol (g : ascii -> Z) text keys :
  List.NoDup keys -> (forall c, In c text -> In c keys) ->
  total (map g text) = total (map (fun k => occurrences k text * g k) keys).
Proof.
  intros Hnd. induction text as [|a text IH]; intros Hin.
  - symmetry. apply (total_map_const0 keys).
  - cbn [map total fold_right]. fold (total (map g text)).
    rewrite IH by (intros c Hc; apply Hin; right; exact Hc).
    rewrite <- (total_indicator g a keys Hnd) by (apply Hin; left; reflexivity).
    rewrite <- total_map_add. apply total_map_ext_in. intros k _.
    unfold occurrences. simpl. destruct (ascii_dec a k); lia.
Qed.

Lemma length_flat_map_total (f : ascii -> list ascii) text :
  Z.of_nat (length (flat_map f text))
  = total (map (fun c => Z.of_nat (length (f c))) text).
Proof.
  unfold total. induction text as [|c text IH]; [reflexivity|].
  simpl. rewrite length_app, Nat2Z.inj_add, IH. reflexivity.
Qed.

(** There are 256 values of [char]. *)
Lemma ascii_NoDup_length (l : list ascii) : List.NoDup l -> (length l <= 256)%nat.
Proof.
  intros Hnd.
  assert (List.NoDup (map nat_of_ascii l)) as Hn.
  { apply Finite.Injective_map_NoDup; [|exact Hnd].
    intros a b E. rewrite <- (ascii_nat_embedding a), <- (ascii_nat_embedding b), E.
    reflexivity. }
  assert (length (map nat_of_ascii l) <= length (seq 0 256))%nat as Hle.
  { apply NoDup_incl_length; [exact Hn|].
    intros k Hk. apply in_map_iff in Hk as (a & <- & _).
    apply in_seq. pose proof (nat_ascii_bounded a). lia. }
  rewrite length_map, length_seq in Hle. exact Hle.
Qed.

(** The leaves as [buildTree] pushes them. *)
Lemma within_leaves (kvs : list (ascii * Z)) :
  Forall (fun p => 0 <= snd p) kvs -> (length kvs <= 256)%nat ->
  within 8 (total (map snd kvs)) (8 * total (map snd kvs))
         (map (fun p => newLeaf (fst p) (snd p)) kvs).
Proof.
  intros Hpos Hlen.
  assert (map weight (map (fun p => newLeaf (fst p) (snd p)) kvs) = map snd kvs) as Ew.
  { rewrite map_map. apply map_ext. intros [c f]. apply weight_newLeaf. }
  split; [|split].
  - apply List.Forall_map. eapply Forall_impl; [exact Hpos|].
    intros [c f] Hf. rewrite weight_newLeaf. simpl in *. auto.
  - rewrite Ew. reflexivity.
  - exists (map (fun p => (snd p, 8%nat)) kvs). split; [|split].
    + rewrite Ew, map_map. reflexivity.
    + rewrite map_map. cbn [snd]. split.
      * apply List.Forall_map, Forall_forall. intros; lia.
      * unfold kraft. rewrite map_map. cbn [Nat.sub].
        assert (total (map (fun _ : ascii * Z => pow2 0) kvs) = Z.of_nat (length kvs)) as ->.
        { clear. unfold total, pow2. induction kvs as [|p kvs IH]; [reflexivity|].
          cbn [map fold_right length]. rewrite IH. change (2 ^ Z.of_nat 0) with 1. lia. }
        unfold pow2. simpl. lia.
    + assert (total (map wpl (map (fun p => newLeaf (fst p) (snd p)) kvs)) = 0) as ->.
      { rewrite map_map. rewrite (total_map_ext_in _ (fun _ => 0)), total_map_const0;
          [reflexivity|]. intros [c f] _. apply wpl_newLeaf. }
      unfold cost. rewrite map_map. cbn [fst snd].
      clear. unfold total. induction kvs as [|[c f] kvs IH]; simpl in *; lia.
Qed.

(** The leaves as [buildTree] pushes them, with a length chosen for
    each symbol. *)
Lemma within_leaves_lengths M (len : ascii -> nat) (kvs : list (ascii * Z)) :
  Forall (fun p => 0 <= snd p) kvs ->
  feasible M (map (fun p => len (fst p)) kvs) ->
  within M (total (map snd kvs))
         (cost (map (fun p => (snd p, len (fst p))) kvs))
         (map (fun p => newLeaf (fst p) (snd p)) kvs).
Proof.
  intros Hpos Hfe.
  assert (map weight (map (fun p => newLeaf (fst p) (snd p)) kvs) = map snd kvs) as Ew.
  { rewrite map_map. apply map_ext. intros [c f]. apply weight_newLeaf. }
  split; [|split].
  - apply List.Forall_map. eapply Forall_impl; [exact Hpos|].
    intros [c f] Hf. rewrite weight_newLeaf. simpl in *. auto.
  - rewrite Ew. reflexivity.
  - exists (map (fun p => (snd p, len (fst p))) kvs). split; [|split].
    + rewrite Ew, map_map. reflexivity.
    + rewrite map_map. exact Hfe.
    + assert (total (map wpl (map (fun p => newLeaf (fst p) (snd p)) kvs)) = 0) as ->.
      { rewrite map_map. rewrite (total_map_ext_in _ (fun _ => 0)), total_map_const0;
          [reflexivity|]. intros [c f] _. apply wpl_newLeaf. }
      lia.
Qed.

Lemma within_single M W C r : within M W C [r] -> wpl r <= C.
Proof.
  intros (Hf & _ & L & HL & _ & Hc).
  apply Forall_cons in Hf as [[_ H0] _].
  apply Permutation_length in HL as Hlen. rewrite !length_map in Hlen.
  destruct L as [|[w d] [|? ?]]; try discriminate.
  simpl in HL. apply Permutation_singleton_inj in HL. subst w.
  cbn [map total fold_right] in Hc. rewrite cost_cons in Hc.
  unfold cost, total in Hc. simpl in Hc. nia.
Qed.

(** ** The length of the encoded text *)

Lemma new_table_lookup text c f :
  Z.of_nat (length text) < 2 ^ 31 ->
  count_frequencies text ∅ !! c = Some f ->
  In c text /\ f = occurrences c text.
Proof.
  intros Hlen. rewrite count_frequencies_lookup, lookup_empty.
  destruct (decide (c ∈ text)) as [Hin|]; [|discriminate].
  cbn [default from_option id]. intros [= <-].
  split; [apply list_elem_of_In, Hin|].
  apply wrap_int_small. unfold occurrences.
  pose proof (count_occ_bound ascii_dec c text). lia.
Qed.

Lemma new_table_total text :
  Z.of_nat (length text) < 2 ^ 31 ->
  total (map snd (map_to_list (count_frequencies text ∅)))
  = Z.of_nat (length text).
Proof.
  intros Hlen. set (fr := count_frequencies text ∅).
  rewrite <- (total_map_const1 text).
  rewrite (total_by_symbol (fun _ => 1) text (map fst (map_to_list fr))).
  - rewrite map_map. apply total_map_ext_in. intros [c f] Hp.
    apply list_elem_of_In, elem_of_map_to_list in Hp.
    apply (new_table_lookup text c f Hlen) in Hp as [_ ->]. simpl. lia.
  - apply NoDup_ListNoDup, (NoDup_fst_map_to_list fr).
  - intros c Hc. apply list_elem_of_In in Hc.
    destruct (count_frequencies_text text ∅ c Hc) as [f Hf].
    apply in_map_iff. exists (c, f). split; [reflexivity|].
    apply list_elem_of_In, elem_of_map_to_list. exact Hf.
Qed.

(** The symbols of a new frequency table are the symbols of the text,
    each once. *)
Lemma new_table_symbols text :
  Permutation (map fst (map_to_list (count_frequencies text ∅)))
              (remove_dups text).
Proof.
  apply NoDup_Permutation.
  - apply (NoDup_fst_map_to_list (count_frequencies text ∅)).
  - apply NoDup_remove_dups.
  - intros c. rewrite elem_of_remove_dups. split.
    + intros Hc. apply list_elem_of_fmap in Hc as ([c' f] & -> & Hp).
      apply elem_of_map_to_list in Hp. simpl.
      rewrite count_frequencies_lookup, lookup_empty in Hp.
      destruct (decide (c' ∈ text)); [assumption|discriminate].
    + intros Hc. destruct (count_frequencies_text text ∅ c Hc) as [f Hf].
      apply list_elem_of_fmap. exists (c, f). split; [reflexivity|].
      apply elem_of_map_to_list, Hf.
Qed.

(** Lengths of 8 bits for every symbol but one, which gets 7: fewer than
    256 symbols can have them. *)
Lemma feasible_one_shorter (a : ascii) (keys : list ascii) :
  List.NoDup keys -> (length keys < 256)%nat ->
  feasible 8 (map (fun c => if decide (c = a) then 7%nat else 8%nat) keys).
Proof.
  intros Hnd Hlen. split.
  - apply List.Forall_map, Forall_forall. intros c _.
    destruct (decide (c = a)); lia.
  - assert (kraft 8 (map (fun c => if decide (c = a) then 7%nat else 8%nat) keys)
            <= Z.of_nat (length keys) + 1) as Hk.
    { clear Hlen. unfold kraft. rewrite map_map.
      induction keys as [|c keys IH]; [simpl; lia|].
      inversion Hnd as [|? ? Hc Hnd']; subst.
      cbn [map length]. unfold total in *. cbn [fold_right].
      destruct (decide (c = a)) as [->|Hca].
      - assert (fold_right Z.add 0
                  (map (fun x => pow2 (8 - (if decide (x = a) then 7 else 8))) keys)
                = Z.of_nat (length keys)) as ->.
        { clear - Hc. induction keys as [|d keys IH]; [reflexivity|].
          cbn [map fold_right length].
          destruct (decide (d = a)) as [->|_]; [exfalso; apply Hc; left; reflexivity|].
          rewrite IH by (intros H; apply Hc; right; exact H).
          change (pow2 (8 - 8)) with 1. lia. }
        change (pow2 (8 - 7)) with 2. lia.
      - specialize (IH Hnd'). change (pow2 (8 - 8)) with 1. lia. }
    change (pow2 8) with 256. lia.
Qed.

(** With these lengths a text in which the symbol occurs costs fewer
    than 8 bits per symbol. *)
Lemma total_one_shorter (a : ascii) (text : list ascii) :
  In a text ->
  total (map (fun c => Z.of_nat (if decide (c = a) then 7 else 8)) text)
  < 8 * Z.of_nat (length text).
Proof.
  intros Ha.
  assert (forall t, total (map (fun c => Z.of_nat (if decide (c = a) then 7 else 8)) t)
                    <= 8 * Z.of_nat (length t)) as Hle.
  { intros t. induction t as [|c t IH]; [simpl; lia|].
    unfold total in *. cbn [map fold_right length].
    destruct (decide (c = a)); lia. }
  induction text as [|c text IH]; [contradiction|].
  unfold total in *. cbn [map fold_right length].
  destruct Ha as [->|Ha].
  - specialize (Hle text). unfold total in Hle.
    destruct (decide (a = a)); [lia|congruence].
  - specialize (IH Ha). destruct (decide (c = a)); lia.
Qed.

Section LengthBound.

Context {Q : Type} `{PQ : PriorityQueue Q} {UI : UnorderedIteration}.

(** The tree built on a new frequency table costs at most 8 bits per
    symbol of the text. *)
Lemma built_wpl_bound text h r :
  Z.of_nat (length text) < 2 ^ 31 -> frequencies h = ∅ ->
  buildTree text h = Returns (built text h r) ->
  wpl r <= 8 * Z.of_nat (length text).
Proof.
  intros Hlen Hnew Hb.
  pose proof (buildTree_Returns_nonempty text h _ Hb) as Hne.
  destruct (buildTree_loop text h Hne) as (q' & r' & Hloop & Hel & Hb').
  rewrite Hb in Hb'. injection Hb' as <-.
  rewrite Hnew in Hloop. set (fr := count_frequencies text ∅) in *.
  pose proof (new_table_total text Hlen) as HW. fold fr in HW.
  apply (within_single 8 (Z.of_nat (length text))). rewrite <- Hel.
  eapply (merge_loop_invariant
            (within 8 (Z.of_nat (length text)) (8 * Z.of_nat (length text))));
    [apply within_perm| |idtac|exact Hloop].
  - intros l0 r0 rest. apply within_merge. exact Hlen.
  - eapply within_perm; [symmetry; apply push_leaves_elements|].
    rewrite <- HW. apply within_leaves.
    + apply Forall_forall. intros [c f] Hp.
      apply elem_of_map_to_list in Hp.
      apply (new_table_lookup text c f Hlen) in Hp as [_ ->].
      unfold occurrences. simpl. lia.
    + rewrite <- (length_map fst). apply ascii_NoDup_length.
      apply NoDup_ListNoDup, (NoDup_fst_map_to_list fr).
Qed.

(** What the merge loop keeps, at its end: the root caches the sum of
    the counts, and the tree costs no more than the lengths chosen. *)
Lemma built_within M (len : ascii -> nat) text h r :
  Z.of_nat (length text) < 2 ^ 31 -> frequencies h = ∅ ->
  buildTree text h = Returns (built text h r) ->
  feasible M (map (fun p => len (fst p))
                  (map_to_list (count_frequencies text ∅))) ->
  within M (Z.of_nat (length text))
         (cost (map (fun p => (snd p, len (fst p)))
                    (map_to_list (count_frequencies text ∅))))
         [r].
Proof.
  intros Hlen Hnew Hb Hfe.
  pose proof (buildTree_Returns_nonempty text h _ Hb) as Hne.
  destruct (buildTree_loop text h Hne) as (q' & r' & Hloop & Hel & Hb').
  rewrite Hb in Hb'. injection Hb' as <-.
  rewrite Hnew in Hloop. set (fr := count_frequencies text ∅) in *.
  pose proof (new_table_total text Hlen) as HW. fold fr in HW.
  rewrite <- Hel.
  eapply (merge_loop_invariant (within M (Z.of_nat (length text)) _));
    [apply within_perm| |idtac|exact Hloop].
  - intros l0 r0 rest. apply within_merge. exact Hlen.
  - eapply within_perm; [symmetry; apply push_leaves_elements|].
    rewrite <- HW. apply within_leaves_lengths; [|exact Hfe].
    apply Forall_forall. intros [c f] Hp.
    apply elem_of_map_to_list in Hp.
    apply (new_table_lookup text c f Hlen) in Hp as [_ ->].
    unfold occurrences. simpl. lia.
Qed.

(** The tree built on a new frequency table costs no more than the text
    does with any lengths that satisfy Kraft's inequality. *)
Lemma built_wpl_lengths M (len : ascii -> nat) text h r :
  Z.of_nat (length text) < 2 ^ 31 -> frequencies h = ∅ ->
  buildTree text h = Returns (built text h r) ->
  feasible M (map len (remove_dups text)) ->
  wpl r <= total (map (fun c => Z.of_nat (len c)) text).
Proof.
  intros Hlen Hnew Hb [Hle Hk].
  set (fr := count_frequencies text ∅).
  assert (total (map (fun c => Z.of_nat (len c)) text)
          = cost (map (fun p => (snd p, len (fst p))) (map_to_list fr))) as ->.
  { rewrite (total_by_symbol _ text (map fst (map_to_list fr))).
    - unfold cost. rewrite !map_map. apply total_map_ext_in. intros [c f] Hcf.
      apply list_elem_of_In, elem_of_map_to_list in Hcf.
      apply (new_table_lookup text c f Hlen) in Hcf as [_ ->]. reflexivity.
    - apply NoDup_ListNoDup, (NoDup_fst_map_to_list fr).
    - intros c Hc. apply list_elem_of_In in Hc.
      destruct (count_frequencies_text text ∅ c Hc) as [f Hf'].
      apply in_map_iff. exists (c, f). split; [reflexivity|].
      apply list_elem_of_In, elem_of_map_to_list. exact Hf'. }
  apply (within_single M (Z.of_nat (length text))).
  apply (built_within M len text h r Hlen Hnew Hb).
  rewrite <- (map_map fst len).
  eapply feasible_perm; [symmetry; apply Permutation_map, new_table_symbols|].
  split; assumption.
Qed.

(** The bits of the encoded text, counted leaf by leaf. *)
Lemma encoded_length_by_leaf text h r :
  Z.of_nat (length text) < 2 ^ 31 -> frequencies h = ∅ ->
  full r ->
  Permutation (map leaf_entry (leaves r))
              (map_to_list (count_frequencies text (frequencies h))) ->
  Z.of_nat (length (flat_map (code_of (codes (built text h r))) text))
  = total (map (fun x => leaf_frequency x
                         * Z.of_nat (length (stored_code (leaf_path x))))
               (leaves r)).
Proof.
  intros Hlen Hnew Hf Hp.
  rewrite length_flat_map_total.
  rewrite (total_by_symbol _ text (map leaf_symbol (leaves r))).
  - rewrite map_map. apply total_map_ext_in. intros x Hx.
    unfold code_of. rewrite (built_codes_leaf text h r x Hf Hp Hx).
    cbn [default from_option id]. f_equal.
    assert (count_frequencies text (frequencies h) !! leaf_symbol x
            = Some (leaf_frequency x)) as Hfx.
    { apply (entries_lookup r _ _ _ Hp). apply in_map_iff. exists x.
      split; [|exact Hx]. destruct x as [[c f] p]. reflexivity. }
    rewrite Hnew in Hfx.
    apply (new_table_lookup text _ _ Hlen) in Hfx as [_ ->]. reflexivity.
  - eapply entries_NoDup; eassumption.
  - intros c Hc. apply (entries_symbols r _ c Hp).
    apply count_frequencies_text, list_elem_of_In, Hc.
Qed.

(** C7, as the code has it.  For a non-empty text of fewer than 2^31
    symbols, on an object whose frequency table is empty (a new one),
    [encode(text)] after [buildTree(text)] is at most 8 bits per symbol
    of the text long, and fewer than 8 bits per symbol when the text
    has fewer than 256 distinct symbols.  The 8 bits per symbol are
    reached only by texts in which all 256 values of [char] occur. *)
Theorem encoded_length_bound text h :
  text <> [] -> Z.of_nat (length text) < 2 ^ 31 -> frequencies h = ∅ ->
  exists h' bits h'',
    buildTree text h = Returns h'
    /\ encode text h' = (bits, h'')
    /\ (length bits <= 8 * length text)%nat
    /\ ((length (remove_dups text) < 256)%nat ->
        (length bits < 8 * length text)%nat)
    /\ (length bits = (8 * length text)%nat ->
        length (remove_dups text) = 256%nat).
Proof.
  intros Ht Hlen Hnew.
  destruct (buildTree_table text h (count_frequencies_nonempty _ _ Ht))
    as (r & Hb & Hf & Hp & _).
  exists (built text h r). rewrite encode_spec. eexists _, _.
  split; [exact Hb|]. split; [reflexivity|].
  pose proof (encoded_length_by_leaf text h r Hlen Hnew Hf Hp) as Ebits.
  pose proof (ascii_NoDup_length _
                (proj1 (NoDup_ListNoDup _) (NoDup_remove_dups text))) as H256.
  assert ((length (flat_map (code_of (codes (built text h r))) text)
           <= 8 * length text)%nat
          /\ ((length (remove_dups text) < 256)%nat ->
              (length (flat_map (code_of (codes (built text h r))) text)
               < 8 * length text)%nat)) as [Hle Hlt]; [|repeat split; [assumption..|lia]].
  destruct (isLeaf r) eqn:El.
  - apply isLeaf_true in El as (c & f & ->).
    assert (total (map leaf_frequency (leaves (mkNode c f None None)))
            = Z.of_nat (length text)) as HW.
    { rewrite <- (new_table_total text Hlen), <- Hnew.
      rewrite <- (total_perm _ _ (Permutation_map snd Hp)), map_map.
      reflexivity. }
    assert (0 < length text)%nat by (destruct text; [congruence|simpl; lia]).
    unfold total, leaf_frequency, leaf_path in *. simpl in *. lia.
  - rewrite (total_map_ext_in _
               (fun x => leaf_frequency x * Z.of_nat (length (leaf_path x))))
      in Ebits
      by (intros x Hx; rewrite (stored_code_path r x Hf El Hx); reflexivity).
    fold (wpl r) in Ebits. split.
    + pose proof (built_wpl_bound text h r Hlen Hnew Hb). lia.
    + intros Hfew. destruct text as [|a text']; [congruence|].
      set (text := a :: text') in *.
      pose proof (built_wpl_lengths 8
                    (fun c => if decide (c = a) then 7%nat else 8%nat)
                    text h r Hlen Hnew Hb
                    (feasible_one_shorter a _
                       (proj1 (NoDup_ListNoDup _) (NoDup_remove_dups text)) Hfew))
        as Hw.
      pose proof (total_one_shorter a text (or_introl eq_refl)).
      cbv beta in Hw. lia.
Qed.

End LengthBound.

(** * Further properties of the code *)

(** ** Further properties: the comparator *)

(** [Compare] is a strict weak ordering, as [std::priority_queue] asks
    of its comparator: irreflexive, transitive, and with a transitive
    "neither before the other". *)
Theorem Compare_strict_weak_order :
  (forall a, Compare a a = false)
  /\ (forall a b c, Compare a b = true -> Compare b c = true -> Compare a c = true)
  /\ (forall a b c,
        Compare a b = false -> Compare b a = false ->
        Compare b c = false -> Compare c b = false ->
        Compare a c = false /\ Compare c a = false).
Proof.
  unfold Compare. split; [|split].
  - intros a. apply Z.ltb_irrefl.
  - intros a b c H1 H2. apply Z.ltb_lt in H1, H2. apply Z.ltb_lt. lia.
  - intros a b c H1 H2 H3 H4. apply Z.ltb_ge in H1, H2, H3, H4.
    split; apply Z.ltb_ge; lia.
Qed.

(** ** Further properties: [buildTree] *)

Section MoreBuildTree.

Context {Q : Type} `{PQ : PriorityQueue Q} {UI : UnorderedIteration}.

(** [buildTree] has no defined result exactly when the text is empty and
    nothing was counted before: [root = pq.top()] is then taken of an
    empty queue.  In every other case it returns. *)
Theorem buildTree_undefined_iff text h :
  buildTree text h = Undefined <-> text = [] /\ frequencies h = ∅.
Proof.
  rewrite <- count_frequencies_empty. split.
  - intros Hu. destruct (decide (count_frequencies text (frequencies h) = ∅))
      as [E|E]; [exact E|].
    destruct (buildTree_returns text h E) as (r & Hb & _). congruence.
  - apply buildTree_undefined.
Qed.

(** The tree [buildTree] leaves: every node is a leaf or has two
    children, and the leaves are the entries of the frequency table,
    each symbol once with its count. *)
Theorem buildTree_tree_shape text h h' :
  buildTree text h = Returns h' ->
  exists r,
    root h' = Some r /\ full r
    /\ List.NoDup (map leaf_symbol (leaves r))
    /\ forall c f, In (c, f) (map leaf_entry (leaves r))
                   <-> frequencies h' !! c = Some f.
Proof.
  intros Hb.
  destruct (buildTree_returns text h (buildTree_Returns_nonempty _ _ _ Hb))
    as (r & Hb' & Hf & Hp).
  rewrite Hb in Hb'. injection Hb' as ->. exists r.
  split; [reflexivity|]. split; [exact Hf|]. split.
  - eapply entries_NoDup; eassumption.
  - intros c f. apply (entries_lookup r _ c f Hp).
Qed.

Lemma feasible_bytes (kvs : list (ascii * Z)) :
  List.NoDup (map fst kvs) -> feasible 8 (map (fun _ => 8%nat) kvs).
Proof.
  intros Hnd. apply ascii_NoDup_length in Hnd. rewrite length_map in Hnd. split.
  - apply List.Forall_map, Forall_forall. intros; lia.
  - unfold kraft. rewrite map_map. cbn [Nat.sub].
    assert (total (map (fun _ : ascii * Z => pow2 0) kvs) = Z.of_nat (length kvs)) as ->.
    { clear. unfold total, pow2. induction kvs as [|p kvs IH]; [reflexivity|].
      cbn [map fold_right length]. rewrite IH. change (2 ^ Z.of_nat 0) with 1. lia. }
    unfold pow2. simpl. lia.
Qed.

(** On a new object and a text of fewer than 2^31 symbols the frequency
    table holds the number of occurrences of each symbol of the text and
    nothing else, and the root of the tree caches their sum, the length
    of the text. *)
Theorem buildTree_counts_and_root text h :
  text <> [] -> Z.of_nat (length text) < 2 ^ 31 -> frequencies h = ∅ ->
  exists h' r,
    buildTree text h = Returns h' /\ root h' = Some r
    /\ (forall c, frequencies h' !! c
                  = if decide (c ∈ text) then Some (occurrences c text) else None)
    /\ (forall c, c ∈ text -> 1 <= occurrences c text)
    /\ frequency r = Z.of_nat (length text).
Proof.
  intros Ht Hlen Hnew.
  destruct (buildTree_returns text h) as (r & Hb & Hf & Hp).
  { apply count_frequencies_nonempty, Ht. }
  exists (built text h r), r. split; [exact Hb|]. split; [reflexivity|].
  split; [|split].
  - intros c. cbn [frequencies built]. rewrite Hnew.
    destruct (count_frequencies text ∅ !! c) as [f|] eqn:E.
    + apply (new_table_lookup text c f Hlen) in E as [Hin ->].
      destruct (decide (c ∈ text)) as [_|Hn]; [reflexivity|].
      exfalso. apply Hn, list_elem_of_In, Hin.
    + destruct (decide (c ∈ text)) as [Hin|_]; [|reflexivity].
      destruct (count_frequencies_text text ∅ c Hin) as [f Hf']. congruence.
  - intros c Hc. unfold occurrences. apply list_elem_of_In in Hc.
    apply (count_occ_In ascii_dec) in Hc. lia.
  - destruct (built_within 8 (fun _ => 8%nat) text h r Hlen Hnew Hb)
      as (Hfr & HW & _).
    { apply feasible_bytes, NoDup_ListNoDup, NoDup_fst_map_to_list. }
    apply Forall_cons in Hfr as [[-> _] _].
    unfold total in HW. simpl in HW. lia.
Qed.

(** The code is optimal.  Give every symbol of the text a length of at
    least one bit so that the lengths satisfy Kraft's inequality, as the
    lengths of any prefix-free binary code do.  Then the text encoded by
    [encode] after [buildTree] is no longer than the text would be with
    these lengths. *)
Theorem encoded_length_minimal text h (len : ascii -> nat) (M : nat) :
  text <> [] -> Z.of_nat (length text) < 2 ^ 31 -> frequencies h = ∅ ->
  (forall c, c ∈ text -> (1 <= len c <= M)%nat) ->
  kraft M (map len (remove_dups text)) <= pow2 M ->
  exists h' bits h'',
    buildTree text h = Returns h'
    /\ encode text h' = (bits, h'')
    /\ Z.of_nat (length bits) <= total (map (fun c => Z.of_nat (len c)) text).
Proof.
  intros Ht Hlen Hnew Hlenc Hk.
  destruct (buildTree_table text h (count_frequencies_nonempty _ _ Ht))
    as (r & Hb & Hf & Hp & _).
  exists (built text h r). rewrite encode_spec. eexists _, _.
  split; [exact Hb|]. split; [reflexivity|].
  rewrite (encoded_length_by_leaf text h r Hlen Hnew Hf Hp).
  set (fr := count_frequencies text ∅).
  assert (total (map (fun c => Z.of_nat (len c)) text)
          = cost (map (fun p => (snd p, len (fst p))) (map_to_list fr))) as Ecost.
  { rewrite (total_by_symbol _ text (map fst (map_to_list fr))).
    - unfold cost. rewrite !map_map. apply total_map_ext_in. intros [c f] Hcf.
      apply list_elem_of_In, elem_of_map_to_list in Hcf.
      apply (new_table_lookup text c f Hlen) in Hcf as [_ ->]. reflexivity.
    - apply NoDup_ListNoDup, (NoDup_fst_map_to_list fr).
    - intros c Hc. apply list_elem_of_In in Hc.
      destruct (count_frequencies_text text ∅ c Hc) as [f Hf'].
      apply in_map_iff. exists (c, f). split; [reflexivity|].
      apply list_elem_of_In, elem_of_map_to_list. exact Hf'. }
  destruct (isLeaf r) eqn:El.
  - apply isLeaf_true in El as (c & f & ->).
    assert (total (map leaf_frequency (leaves (mkNode c f None None)))
            = Z.of_nat (length text)) as HW.
    { rewrite <- (new_table_total text Hlen), <- Hnew.
      rewrite <- (total_perm _ _ (Permutation_map snd Hp)), map_map.
      reflexivity. }
    assert (Z.of_nat (length text)
            <= total (map (fun c => Z.of_nat (len c)) text)) as Hone.
    { rewrite <- (total_map_const1 text). clear - Hlenc.
      induction text as [|a text IH]; [reflexivity|].
      unfold total in *. cbn [map fold_right].
      assert (1 <= len a)%nat by (apply Hlenc; constructor).
      assert (fold_right Z.add 0 (map (fun _ => 1) text)
              <= fold_right Z.add 0 (map (fun c => Z.of_nat (len c)) text)).
      { apply IH. intros c Hc. apply Hlenc. constructor. exact Hc. }
      lia. }
    unfold total, leaf_frequency, leaf_path in *. simpl in *. lia.
  - rewrite (total_map_ext_in _
               (fun x => leaf_frequency x * Z.of_nat (length (leaf_path x))))
      by (intros x Hx; rewrite (stored_code_path r x Hf El Hx); reflexivity).
    rewrite Ecost. apply (within_single M (Z.of_nat (length text))).
    apply (built_within M len text h r Hlen Hnew Hb). split.
    + apply List.Forall_map, Forall_forall. intros [c f] Hcf.
      apply elem_of_map_to_list in Hcf.
      apply (new_table_lookup text c f Hlen) in Hcf as [Hin _].
      apply Hlenc, list_elem_of_In, Hin.
    + rewrite <- (map_map fst len).
      rewrite (kraft_perm M _ _ (Permutation_map len (new_table_symbols text))).
      exact Hk.
Qed.

(** The merge loop, from any non-empty queue: it ends within
    [pq.size()] iterations on a single node, whose leaves are the leaves
    of the nodes the queue held, and which has no one-child node if
    they had none. *)
Theorem merge_loop_result (q : Q) :
  pq_elements q <> [] ->
  exists q' r,
    merge_loop (pq_size q) q = Some q' /\ pq_elements q' = [r]
    /\ Permutation (map leaf_entry (leaves r)) (forest_entries (pq_elements q))
    /\ (Forall full (pq_elements q) -> full r).
Proof.
  intros Hne.
  destruct (merge_loop_terminates (pq_size q) q) as (q' & Hloop & _ & Hone);
    [lia|].
  assert (pq_size q' = 1%nat) as Hsize.
  { apply Hone. rewrite pq_size_spec. destruct (pq_elements q); [congruence|].
    simpl. lia. }
  rewrite pq_size_spec in Hsize.
  destruct (pq_elements q') as [|r [|? ?]] eqn:Eq; try discriminate.
  exists q', r. split; [exact Hloop|]. split; [exact Eq|]. split.
  - pose proof (merge_loop_invariant
                  (fun es => Permutation (forest_entries es)
                                         (forest_entries (pq_elements q)))) as Hinv.
    specialize (Hinv
      (fun es es' Hp He => transitivity (symmetry (forest_entries_perm _ _ Hp)) He)).
    assert (Permutation (forest_entries (pq_elements q'))
                        (forest_entries (pq_elements q))) as Hp.
    { eapply Hinv; [|reflexivity|exact Hloop].
      intros l0 r0 rest _ _ He. rewrite forest_entries_merge. exact He. }
    rewrite Eq in Hp. unfold forest_entries at 1 in Hp. simpl in Hp.
    rewrite app_nil_r in Hp. exact Hp.
  - intros Hfull.
    assert (Forall full (pq_elements q')) as Hf.
    { eapply (merge_loop_invariant (Forall full)); [| |exact Hfull|exact Hloop].
      - intros es es' Hp He. rewrite <- Hp. exact He.
      - intros l0 r0 rest _ _ He.
        inversion He as [|? ? Hl He']; subst.
        inversion He' as [|? ? Hr Hrest]; subst.
        constructor; [constructor; assumption|assumption]. }
    rewrite Eq in Hf. inversion Hf; assumption.
Qed.

Lemma leaf_path_bits n :
  full n -> forall x, In x (leaves n) -> Forall is_bit (leaf_path x).
Proof.
  induction 1 as [c f|c f l r Hl IHl Hr IHr]; intros x Hx.
  - simpl in Hx. destruct Hx as [<-|[]]. constructor.
  - leaf_side Hx y Hy; unfold leaf_path; simpl; constructor;
      try (left; reflexivity); try (right; reflexivity);
      [apply IHl|apply IHr]; assumption.
Qed.

Lemma stored_code_bits p :
  Forall is_bit p -> stored_code p <> [] /\ Forall is_bit (stored_code p).
Proof.
  intros Hp. destruct p as [|b p]; simpl.
  - split; [discriminate|]. repeat constructor.
  - split; [discriminate|exact Hp].
Qed.

(** After [buildTree] every symbol of the frequency table has a code,
    which is not empty and made of '0' and '1'; [encode] of a text over
    these symbols is made of '0' and '1'. *)
Theorem buildTree_codes_are_bits text h h' :
  buildTree text h = Returns h' ->
  (forall c, is_Some (frequencies h' !! c) ->
     exists p, codes h' !! c = Some p /\ p <> [] /\ Forall is_bit p)
  /\ (forall t, Forall (fun c => is_Some (frequencies h' !! c)) t ->
        Forall is_bit (fst (encode t h'))).
Proof.
  intros Hb.
  destruct (buildTree_table text h (buildTree_Returns_nonempty _ _ _ Hb))
    as (r & Hb' & Hf & Hp & Hin & _).
  rewrite Hb in Hb'. injection Hb' as ->.
  assert (forall c, is_Some (frequencies (built text h r) !! c) ->
            exists p, codes (built text h r) !! c = Some p
                      /\ p <> [] /\ Forall is_bit p) as Hcodes.
  { intros c Hc. apply (entries_symbols r _ c Hp), in_map_iff in Hc as (x & <- & Hx).
    exists (stored_code (leaf_path x)). split; [apply Hin, Hx|].
    apply stored_code_bits, (leaf_path_bits r Hf x Hx). }
  split; [exact Hcodes|].
  intros t Ht. rewrite encode_spec. cbn [fst].
  induction Ht as [|c t Hc _ IH]; [constructor|]. cbn [flat_map].
  apply Forall_app. split; [|exact IH].
  destruct (Hcodes c Hc) as (p & Ep & _ & Hbits). unfold code_of. rewrite Ep.
  exact Hbits.
Qed.

(** On a new object the code table [buildTree] leaves has one entry for
    each symbol of the text and no other. *)
Theorem buildTree_code_table_symbols text h :
  text <> [] -> frequencies h = ∅ -> codes h = ∅ ->
  exists h',
    buildTree text h = Returns h'
    /\ forall c, is_Some (codes h' !! c) <-> c ∈ text.
Proof.
  intros Ht Hnf Hnc.
  destruct (buildTree_table text h (count_frequencies_nonempty _ _ Ht))
    as (r & Hb & Hf & Hp & Hin & Hout).
  exists (built text h r). split; [exact Hb|]. intros c.
  rewrite Hnf in Hp, Hout. split.
  - intros Hc. destruct (decide (c ∈ text)) as [Hi|Hn]; [exact Hi|].
    assert (count_frequencies text ∅ !! c = None) as Enone.
    { rewrite count_frequencies_lookup, lookup_empty.
      destruct (decide (c ∈ text)); [contradiction|reflexivity]. }
    rewrite (Hout c Enone), Hnc, lookup_empty in Hc. destruct Hc; discriminate.
  - intros Hc. apply (count_frequencies_text text ∅) in Hc.
    apply (entries_symbols r _ c Hp), in_map_iff in Hc as (x & <- & Hx).
    rewrite (Hin x Hx). eauto.
Qed.

End MoreBuildTree.

(** ** Further properties: [encode] *)

Lemma touched_app t1 t2 cs : touched (t1 ++ t2) cs = touched t2 (touched t1 cs).
Proof. unfold touched. apply fold_left_app. Qed.

Lemma code_of_touched t cs c : code_of (touched t cs) c = code_of cs c.
Proof.
  unfold code_of. rewrite touched_lookup. destruct (cs !! c); [reflexivity|].
  destruct (decide (c ∈ t)); reflexivity.
Qed.

(** [encode] of a concatenation is the concatenation of the encodings,
    whether the second text is encoded on the object as it was or as the
    first call left it; one call on the whole text and two calls on its
    parts leave the same object. *)
Theorem encode_app t1 t2 h :
  fst (encode (t1 ++ t2) h) = fst (encode t1 h) ++ fst (encode t2 h)
  /\ encode t2 (snd (encode t1 h))
     = (fst (encode t2 h), snd (encode (t1 ++ t2) h)).
Proof.
  rewrite !encode_spec. cbn [fst snd codes root frequencies]. split.
  - apply flat_map_app.
  - rewrite touched_app. f_equal.
    apply flat_map_ext. intros c. apply code_of_touched.
Qed.

(** ** Further properties: [decode] *)

Lemma decode_loop_result rt encoded :
  forall cur result,
    decode_loop rt cur encoded result
    = match decode_loop rt cur encoded [] with
      | Returns decoded => Returns (result ++ decoded)
      | Undefined => Undefined
      end.
Proof.
  induction encoded as [|bit encoded IH]; intros cur result; simpl.
  - rewrite app_nil_r. reflexivity.
  - destruct (if Ascii.eqb bit "0" then left cur else right cur) as [next|];
      [|reflexivity].
    destruct (isLeaf next).
    + rewrite (IH rt (result ++ [character next])), (IH rt [character next]).
      destruct (decode_loop rt rt encoded []); [|reflexivity].
      rewrite <- app_assoc. reflexivity.
    + apply IH.
Qed.

Lemma decode_loop_length rt encoded :
  forall cur result decoded,
    decode_loop rt cur encoded result = Returns decoded ->
    (length decoded <= length result + length encoded)%nat.
Proof.
  induction encoded as [|bit encoded IH]; intros cur result decoded; simpl.
  - intros [= <-]. lia.
  - destruct (if Ascii.eqb bit "0" then left cur else right cur) as [next|];
      [|discriminate].
    destruct (isLeaf next); intros H; apply IH in H;
      rewrite ?length_app in H; simpl in H; lia.
Qed.

(** The symbols of the leaves below a child are symbols of leaves below
    the node. *)
Lemma child_symbols (P : ascii -> Prop) cur next bit :
  (forall x, In x (leaves cur) -> P (leaf_symbol x)) ->
  (if Ascii.eqb bit "0" then left cur else right cur) = Some next ->
  forall x, In x (leaves next) -> P (leaf_symbol x).
Proof.
  intros Hcur Hnext x Hx.
  assert (exists b, In (under b x) (leaves cur)) as [b Hb].
  { destruct cur as [c f [l|] [r|]]; simpl in *;
      destruct (Ascii.eqb bit "0"); try discriminate;
      injection Hnext as ->.
    - exists "0"%char. apply in_or_app. left. apply in_map, Hx.
    - exists "1"%char. apply in_or_app. right. apply in_map, Hx.
    - exists "0"%char. rewrite app_nil_r. apply in_map, Hx.
    - exists "1"%char. apply in_map, Hx. }
  apply Hcur in Hb. destruct x as [[c f] p]. exact Hb.
Qed.

Lemma isLeaf_symbol next :
  isLeaf next = true -> In (character next, frequency next, []) (leaves next).
Proof. intros H. apply isLeaf_true in H as (c & f & ->). left. reflexivity. Qed.

Lemma decode_loop_symbols_of rt (P : ascii -> Prop) encoded :
  (forall x, In x (leaves rt) -> P (leaf_symbol x)) ->
  forall cur result decoded,
    (forall x, In x (leaves cur) -> P (leaf_symbol x)) ->
    Forall P result ->
    decode_loop rt cur encoded result = Returns decoded ->
    Forall P decoded.
Proof.
  intros Hrt. induction encoded as [|bit encoded IH];
    intros cur result decoded Hcur Hres; simpl.
  - intros [= <-]. exact Hres.
  - destruct (if Ascii.eqb bit "0" then left cur else right cur) as [next|] eqn:E;
      [|discriminate].
    pose proof (child_symbols P cur next bit Hcur E) as Hnext.
    destruct (isLeaf next) eqn:El.
    + apply IH; [exact Hrt|]. apply Forall_app. split; [exact Hres|].
      constructor; [|constructor].
      apply (Hnext _ (isLeaf_symbol next El)).
    + apply IH; assumption.
Qed.

Section MoreDecode.

Context {Q : Type} `{PQ : PriorityQueue Q} {UI : UnorderedIteration}.

(** After [buildTree] on two symbols or more, [decode] returns for every
    string of characters: it never leaves the tree.  What it returns is
    no longer than its input and made of symbols of the frequency
    table. *)
Theorem decode_returns text h :
  (2 <= size (count_frequencies text (frequencies h)))%nat ->
  exists h',
    buildTree text h = Returns h'
    /\ forall encoded,
         exists decoded,
           decode encoded h' = Returns decoded
           /\ (length decoded <= length encoded)%nat
           /\ Forall (fun c => is_Some (frequencies h' !! c)) decoded.
Proof.
  intros H2.
  destruct (buildTree_table text h) as (r & Hb & Hf & Hp & _);
    [apply size_nonempty; lia|].
  pose proof (built_two_symbols text h r H2 Hf Hp) as Hl.
  exists (built text h r). split; [exact Hb|]. intros encoded.
  unfold decode. cbn [root built].
  destruct (decode_loop_total r Hf Hl encoded r [] Hf Hl) as [decoded Hd].
  exists decoded. split; [exact Hd|]. split.
  - apply decode_loop_length in Hd. simpl in Hd. exact Hd.
  - assert (forall x, In x (leaves r) ->
              is_Some (frequencies (built text h r) !! leaf_symbol x)) as Hsym.
    { intros x Hx. apply (entries_symbols r _ _ Hp). apply in_map, Hx. }
    eapply (decode_loop_symbols_of r _ encoded Hsym r []); [exact Hsym|constructor|exact Hd].
Qed.

(** After [buildTree] on two symbols or more, [decode] reads code by
    code: on the codes of some symbols followed by any characters it
    returns these symbols followed by what it returns on the
    characters. *)
Theorem decode_codes_then_rest text h :
  (2 <= size (count_frequencies text (frequencies h)))%nat ->
  exists h',
    buildTree text h = Returns h'
    /\ forall syms rest,
         Forall (fun a => is_Some (frequencies h' !! a)) syms ->
         exists decoded,
           decode rest h' = Returns decoded
           /\ decode (flat_map (code_of (codes h')) syms ++ rest) h'
              = Returns (syms ++ decoded).
Proof.
  intros H2.
  destruct (buildTree_table text h) as (r & Hb & Hf & Hp & _);
    [apply size_nonempty; lia|].
  pose proof (built_two_symbols text h r H2 Hf Hp) as Hl.
  exists (built text h r). split; [exact Hb|]. intros syms rest Hsyms.
  destruct (symbols_as_leaves text h r syms Hf Hl Hp Hsyms) as (xs & Hxs & Hsy & Hfl).
  unfold decode. cbn [root built].
  destruct (decode_loop_total r Hf Hl rest r [] Hf Hl) as [decoded Hd].
  exists decoded. split; [exact Hd|].
  rewrite <- Hfl, decode_loop_symbols by assumption.
  rewrite decode_loop_result, Hd. simpl. rewrite Hsy. reflexivity.
Qed.

End MoreDecode.

(** ** Further properties: [printCodes] *)

Lemma frequencies_at_lookup c m d :
  snd (frequencies_at c m) !! d
  = match m !! d with
    | Some f => Some f
    | None => if decide (c = d) then Some 0 else None
    end.
Proof.
  unfold frequencies_at. destruct (m !! c) as [f|] eqn:E; simpl.
  - destruct (m !! d) eqn:E'; [reflexivity|].
    destruct (decide (c = d)); [congruence|reflexivity].
  - rewrite lookup_insert. destruct (decide (c = d)) as [->|].
    + rewrite E. reflexivity.
    + destruct (m !! d); reflexivity.
Qed.

Lemma frequencies_at_fst c m : fst (frequencies_at c m) = default 0 (m !! c).
Proof. unfold frequencies_at. destruct (m !! c); reflexivity. Qed.

Lemma printCodes_loop_spec l :
  forall out fr,
    fold_left printCodes_step l (out, fr)
    = (out ++ flat_map (fun p => printCodes_line (default 0 (fr !! fst p)) p) l,
       fold_left (fun m p => snd (frequencies_at (fst p) m)) l fr).
Proof.
  induction l as [|p l IH]; intros out fr; cbn [fold_left flat_map].
  - rewrite app_nil_r. reflexivity.
  - unfold printCodes_step at 2. cbn [fst snd].
    rewrite (surjective_pairing (frequencies_at (fst p) fr)), frequencies_at_fst.
    rewrite IH, <- app_assoc. f_equal. f_equal. f_equal.
    apply flat_map_ext. intros q. f_equal.
    rewrite frequencies_at_lookup. destruct (fr !! fst q); [reflexivity|].
    destruct (decide (fst p = fst q)); reflexivity.
Qed.

Lemma printCodes_loop_lookup (l : list (ascii * list ascii)) fr d :
  fold_left (fun m p => snd (frequencies_at (fst p) m)) l fr !! d
  = match fr !! d with
    | Some f => Some f
    | None => if decide (d ∈ map fst l) then Some 0 else None
    end.
Proof.
  revert fr. induction l as [|p l IH]; intros fr; cbn [fold_left map].
  - destruct (fr !! d); [reflexivity|].
    destruct (decide (d ∈ [])) as [Hin|_]; [|reflexivity].
    apply not_elem_of_nil in Hin. contradiction.
  - rewrite IH, frequencies_at_lookup. destruct (fr !! d); [reflexivity|].
    destruct (decide (fst p = d)) as [E|E].
    + destruct (decide (d ∈ fst p :: map fst l)) as [_|Hn]; [reflexivity|].
      exfalso. apply Hn. rewrite E. constructor.
    + destruct (decide (d ∈ map fst l)) as [Hin|Hin];
        destruct (decide (d ∈ fst p :: map fst l)) as [H|H]; try reflexivity.
      * exfalso. apply H. constructor. exact Hin.
      * exfalso. apply elem_of_cons in H as [?|?]; [congruence|contradiction].
Qed.

Section PrintCodesProperties.

Context {CI : CodesIteration}.

(** [printCodes] writes its three header lines and then one line for
    each entry of the code table, with the count the frequency table had
    for the symbol before the call, 0 when it had none.  It leaves the
    tree and the code table as they were; reading [frequencies[c]] adds
    a zero count for each symbol of the code table that had none, so the
    object is unchanged exactly when there was no such symbol. *)
Theorem printCodes_spec (h : HuffmanCoding) :
  fst (printCodes h)
  = printCodes_header
    ++ flat_map (fun p => printCodes_line (default 0 (frequencies h !! fst p)) p)
                (iterate_codes (codes h))
  /\ root (snd (printCodes h)) = root h
  /\ codes (snd (printCodes h)) = codes h
  /\ (forall c,
        frequencies (snd (printCodes h)) !! c
        = match frequencies h !! c with
          | Some f => Some f
          | None => if decide (is_Some (codes h !! c)) then Some 0 else None
          end)
  /\ (snd (printCodes h) = h <-> codes_counted h).
Proof.
  unfold printCodes. rewrite printCodes_loop_spec. cbn [fst snd root codes frequencies].
  assert (forall c,
            fold_left (fun m p => snd (frequencies_at (fst p) m))
                      (iterate_codes (codes h)) (frequencies h) !! c
            = match frequencies h !! c with
              | Some f => Some f
              | None => if decide (is_Some (codes h !! c)) then Some 0 else None
              end) as Hlook.
  { intros c. rewrite printCodes_loop_lookup.
    destruct (frequencies h !! c); [reflexivity|].
    assert (c ∈ map fst (iterate_codes (codes h)) <-> is_Some (codes h !! c))
      as Hiff.
    { rewrite (Permutation_map fst (iterate_codes_perm (codes h))).
      rewrite list_elem_of_In, in_map_iff. split.
      - intros ([c' p] & <- & Hp). exists p.
        apply list_elem_of_In, elem_of_map_to_list in Hp. exact Hp.
      - intros [p Hp]. exists (c, p). split; [reflexivity|].
        apply list_elem_of_In, elem_of_map_to_list. exact Hp. }
    destruct (decide (c ∈ map fst (iterate_codes (codes h))));
      destruct (decide (is_Some (codes h !! c))); try reflexivity; tauto. }
  repeat split; try exact Hlook.
  - intros E c Hc.
    apply (f_equal (fun x => frequencies x !! c)) in E. cbn [frequencies] in E.
    rewrite Hlook in E. destruct (frequencies h !! c) as [f|]; [eauto|].
    destruct (decide (is_Some (codes h !! c))); [discriminate|contradiction].
  - intros Hcc. destruct h as [rt cs fr]. cbn [root codes frequencies] in *.
    f_equal. apply map_eq. intros c. rewrite Hlook.
    destruct (fr !! c) eqn:E; [reflexivity|].
    destruct (decide (is_Some (cs !! c))) as [Hc|_]; [|reflexivity].
    apply Hcc in Hc. cbn [frequencies] in Hc. rewrite E in Hc.
    destruct Hc; discriminate.
Qed.

End PrintCodesProperties.

(** ** Runs of the class

    The engine run on concrete inputs, with [list_queue] for the
    priority queue and [canonical_iteration] for the map.  In the texts
    "abb" and "abbcccc" no two nodes ever have the same frequency, so
    the trees are those of any implementation of the two interfaces. *)

(** Run the calls of the goal and compare. *)
Ltac by_running := repeat split; vm_compute; reflexivity.

Example buildTree_abb :
  buildTree (Q := list Node) (chars "abb") fresh = Returns codec_abb.
Proof. by_running. Qed.

Example buildTree_abbcccc :
  buildTree (Q := list Node) (chars "abbcccc") fresh = Returns codec_abbcccc.
Proof. by_running. Qed.

Example encode_abbcccc :
  encode (chars "abbcccc") codec_abbcccc = (chars "0001011111", codec_abbcccc).
Proof. by_running. Qed.

Example roundtrip_abbcccc :
  decode (chars "0001011111") codec_abbcccc = Returns (chars "abbcccc").
Proof. by_running. Qed.

(** [buildTree_prefix_free] on the text "abbcccc" and a new object,
    where the entries [buildTree] writes are the whole table. *)
Lemma buildTree_prefix_free_abbcccc :
  chars "abbcccc" <> [] /\ codes_counted fresh
  /\ exists h', buildTree (Q := list Node) (chars "abbcccc") fresh = Returns h'
                /\ prefix_free (current_codes h')
                /\ uniquely_decodable (current_codes h')
                /\ current_codes h' = codes h'
                /\ prefix_free (codes h').
Proof.
  assert (chars "abbcccc" <> []) as Ht by discriminate.
  split; [exact Ht|]. split; [exact codes_counted_fresh|].
  destruct (buildTree_prefix_free (Q := list Node) (chars "abbcccc") fresh Ht)
    as (h' & Hb & Hfree & Hdec & Hall & _).
  exists h'. split; [exact Hb|]. split; [exact Hfree|]. split; [exact Hdec|].
  split; [exact (Hall codes_counted_fresh)|].
  rewrite <- (Hall codes_counted_fresh). exact Hfree.
Defined.

(** C6 refuted: [encode("z")] on a new object leaves 'z' in the table
    with the empty code, which [buildTree("abb")] keeps next to the
    codes of 'a' and 'b'.  The empty code is a proper prefix of the code
    "0" of 'a', so the code table [buildTree] leaves is not
    prefix-free; the entries it wrote are those of 'a' and 'b'. *)
Lemma encode_then_buildTree_keeps_empty_code :
  exists h,
    buildTree (Q := list Node) (chars "abb") (snd (encode (chars "z") fresh))
    = Returns h
    /\ codes h !! "z"%char = Some []
    /\ codes h !! "a"%char = Some (chars "0")
    /\ current_codes h !! "z"%char = None
    /\ current_codes h !! "a"%char = Some (chars "0")
    /\ proper_prefix [] (chars "0")
    /\ ~ prefix_free (codes h).
Proof.
  exists (returned (buildTree (Q := list Node) (chars "abb")
                      (snd (encode (chars "z") fresh)))).
  assert (proper_prefix [] (chars "0")) as Hpre.
  { exists (chars "0"). split; [discriminate|reflexivity]. }
  do 5 (split; [vm_compute; reflexivity|]). split; [exact Hpre|].
  intros Hfree.
  apply (Hfree "z"%char "a"%char [] (chars "0"));
    [vm_compute; reflexivity|vm_compute; reflexivity|exact Hpre].
Qed.

(** C9 refuted: [buildTree("bb")] after [buildTree("a")] leaves a
    frequency table, a tree and a code table that differ from those of
    [buildTree("bb")] on a new object; the symbol 'a' of the earlier
    call is still counted, in the tree, and coded. *)
Lemma buildTree_keeps_earlier_counts :
  exists h1 h2 h3,
    buildTree (Q := list Node) (chars "a") fresh = Returns h1
    /\ buildTree (Q := list Node) (chars "bb") h1 = Returns h2
    /\ buildTree (Q := list Node) (chars "bb") fresh = Returns h3
    /\ frequencies h2 !! "a"%char = Some 1
    /\ frequencies h3 !! "a"%char = None
    /\ root h2 = Some (newParent (newLeaf "a" 1) (newLeaf "b" 2))
    /\ root h3 = Some (newLeaf "b" 2)
    /\ codes h2 !! "a"%char = Some (chars "0")
    /\ codes h3 !! "a"%char = None.
Proof.
  exists (returned (buildTree (Q := list Node) (chars "a") fresh)).
  exists (returned (buildTree (Q := list Node) (chars "bb")
                      (returned (buildTree (Q := list Node) (chars "a") fresh)))).
  exists (returned (buildTree (Q := list Node) (chars "bb") fresh)).
  by_running.
Qed.

(** [buildTree_accumulates] on the calls of
    [buildTree_keeps_earlier_counts]. *)
Lemma buildTree_accumulates_a_then_bb :
  let h := built (chars "a") fresh (newLeaf "a" 1) in
  count_frequencies (chars "bb") (frequencies h) <> ∅
  /\ exists r h',
       buildTree (Q := list Node) (chars "bb") h = Returns h'
       /\ root h' = Some r
       /\ (forall c,
             frequencies h' !! c
             = if decide (c ∈ chars "bb")
               then Some (wrap_int (default 0 (frequencies h !! c)
                                    + occurrences c (chars "bb")))
               else frequencies h !! c)
       /\ full r
       /\ Permutation (map leaf_entry (leaves r)) (map_to_list (frequencies h'))
       /\ (forall x, In x (leaves r) ->
             codes h' !! leaf_symbol x = Some (stored_code (leaf_path x)))
       /\ (forall c, frequencies h' !! c = None -> codes h' !! c = codes h !! c).
Proof.
  intros h.
  assert (count_frequencies (chars "bb") (frequencies h) <> ∅) as Hne
    by (apply count_frequencies_nonempty; discriminate).
  split; [exact Hne|].
  exact (buildTree_accumulates (Q := list Node) (chars "bb") h Hne).
Defined.

(** C3 refuted: [buildTree("")] after [buildTree("abb")] returns, with
    the tree of "abb" for root; nothing is reported. *)
Lemma buildTree_empty_text_returns :
  buildTree (Q := list Node) (chars "abb") fresh = Returns codec_abb
  /\ buildTree (Q := list Node) (chars "") codec_abb = Returns codec_abb.
Proof. by_running. Qed.

(** [buildTree_empty_text_again] after [buildTree("abb")] and
    [encode("az")], which leaves 'z' in the code table. *)
Lemma buildTree_empty_text_again_abb :
  let h := snd (encode (chars "az") codec_abb) in
  settled (Q := list Node) h
  /\ codes h !! "z"%char = Some []
  /\ frequencies h <> ∅
  /\ buildTree (Q := list Node) [] h = Returns h
  /\ exists h',
       buildTree (Q := list Node) [] h = Returns h'
       /\ frequencies h' = frequencies h
       /\ buildTree (Q := list Node) [] h' = Returns h'.
Proof.
  intros h.
  assert (settled (Q := list Node) h) as Hs.
  { apply settled_encode. apply (settled_buildTree (chars "abb") fresh).
    vm_compute. reflexivity. }
  destruct (buildTree_empty_text_again (Q := list Node) h) as [Hany Hsettled].
  destruct (Hsettled Hs) as [Hne Hb].
  split; [exact Hs|]. split; [vm_compute; reflexivity|].
  split; [exact Hne|]. split; [exact Hb|]. exact (Hany Hne).
Defined.

(** C4 refuted: 'c' has no entry after [buildTree("abb")], and
    [encode("acb")] returns "01", the bits of "ab", and leaves 'c' in
    the table with the empty code. *)
Lemma encode_unknown_symbol_returns :
  codes codec_abb !! "c"%char = None
  /\ fst (encode (chars "acb") codec_abb) = chars "01"
  /\ fst (encode (chars "ab") codec_abb) = chars "01"
  /\ codes (snd (encode (chars "acb") codec_abb)) !! "c"%char = Some [].
Proof. by_running. Qed.

(** [encode_absent_symbol] on "acb" after [buildTree("abb")]. *)
Lemma encode_absent_symbol_acb :
  codes codec_abb !! "c"%char = None
  /\ fst (encode (chars "a" ++ "c"%char :: chars "b") codec_abb)
     = fst (encode (chars "a" ++ chars "b") codec_abb)
  /\ codes (snd (encode (chars "a" ++ "c"%char :: chars "b") codec_abb)) !! "c"%char
     = Some [].
Proof.
  assert (codes codec_abb !! "c"%char = None) as Hc by (vm_compute; reflexivity).
  split; [exact Hc|].
  exact (encode_absent_symbol (chars "a") "c"%char (chars "b") codec_abb Hc).
Defined.

(** C5 refuted: after [buildTree("abbcccc")] the codes are a: "00",
    b: "01", c: "1"; the bits "10" are the code of 'c' and the first
    half of a code, and [decode] returns "c". *)
Lemma decode_truncated_returns :
  buildTree (Q := list Node) (chars "abbcccc") fresh = Returns codec_abbcccc
  /\ codes codec_abbcccc !! "a"%char = Some (chars "00")
  /\ codes codec_abbcccc !! "b"%char = Some (chars "01")
  /\ codes codec_abbcccc !! "c"%char = Some (chars "1")
  /\ decode (chars "10") codec_abbcccc = Returns (chars "c").
Proof. by_running. Qed.

(** [decode_drops_partial_symbol] on the text "abbcccc". *)
Lemma decode_drops_partial_symbol_abbcccc :
  (2 <= size (count_frequencies (chars "abbcccc") (frequencies fresh)))%nat
  /\ exists h',
       buildTree (Q := list Node) (chars "abbcccc") fresh = Returns h'
       /\ forall syms c p s,
            Forall (fun a => is_Some (frequencies h' !! a)) syms ->
            is_Some (frequencies h' !! c) ->
            codes h' !! c = Some (p ++ s) -> s <> [] ->
            decode (flat_map (code_of (codes h')) syms ++ p) h' = Returns syms.
Proof.
  assert (2 <= size (count_frequencies (chars "abbcccc") (frequencies fresh)))%nat
    as H2 by (vm_compute; lia).
  split; [exact H2|].
  exact (decode_drops_partial_symbol (Q := list Node) (chars "abbcccc") fresh H2).
Defined.

(** C8 refuted: after [buildTree("abb")], [encode("c")] adds an entry
    for 'c' to the code table. *)
Lemma encode_changes_code_table :
  codes codec_abb !! "c"%char = None
  /\ codes (snd (encode (chars "c") codec_abb)) !! "c"%char = Some []
  /\ snd (encode (chars "c") codec_abb) <> codec_abb.
Proof.
  split; [vm_compute; reflexivity|]. split; [vm_compute; reflexivity|].
  intros E. apply (f_equal (fun h => codes h !! "c"%char)) in E.
  vm_compute in E. discriminate.
Qed.

(** [decode_reads_nonzero_as_one] after [buildTree("abbcccc")]: "0x1y"
    is the walk left, right, right, right; "0x" spells the path "01" of
    'b'; "0x1y" and "0111" are decoded alike. *)
Lemma decode_reads_nonzero_as_one_0x1y :
  let rt := newParent (newParent (newLeaf "a" 1) (newLeaf "b" 2)) (newLeaf "c" 4) in
  move_of "x" = go_right
  /\ decode (chars "0x1y") codec_abbcccc
     = walk rt rt [go_left; go_right; go_right; go_right]
  /\ decode (chars "0x") codec_abbcccc = Returns (chars "b")
  /\ decode (chars "0x1y") codec_abbcccc = decode (chars "0111") codec_abbcccc.
Proof.
  intros rt.
  destruct (decode_reads_nonzero_as_one codec_abbcccc) as (Hm & Hw & Hx & _ & He).
  split; [apply Hm; discriminate|].
  split; [apply (Hw rt (chars "0x1y")); reflexivity|].
  split; [|apply He; reflexivity].
  apply (Hx rt ("b"%char, 2, chars "01") (chars "0x")); try reflexivity.
  - repeat constructor.
  - simpl. auto.
Defined.

Example decode_0x1y :
  decode (chars "0x1y") codec_abbcccc = Returns (chars "bcc").
Proof. by_running. Qed.

(** C7 refuted: on the text of all 256 symbols every code is 8 bits
    long, so the encoded text has exactly 8 bits per symbol, with an
    alphabet of neither one nor two symbols. *)
Lemma encoded_length_all_bytes :
  exists h,
    buildTree (Q := list Node) all_bytes fresh = Returns h
    /\ size (frequencies h) = 256%nat
    /\ length (fst (encode all_bytes h)) = (8 * length all_bytes)%nat.
Proof.
  exists (returned (buildTree (Q := list Node) all_bytes fresh)).
  by_running.
Qed.

(** [encoded_length_bound] on the text "abbcccc", of three distinct
    symbols: fewer than 8 bits per symbol. *)
Lemma encoded_length_bound_abbcccc :
  chars "abbcccc" <> [] /\ Z.of_nat (length (chars "abbcccc")) < 2 ^ 31
  /\ frequencies fresh = ∅
  /\ (length (remove_dups (chars "abbcccc")) < 256)%nat
  /\ exists h' bits h'',
       buildTree (Q := list Node) (chars "abbcccc") fresh = Returns h'
       /\ encode (chars "abbcccc") h' = (bits, h'')
       /\ (length bits <= 8 * length (chars "abbcccc"))%nat
       /\ (length bits < 8 * length (chars "abbcccc"))%nat.
Proof.
  assert (chars "abbcccc" <> []) as Ht by discriminate.
  assert (Z.of_nat (length (chars "abbcccc")) < 2 ^ 31) as Hlen by (simpl; lia).
  assert (length (remove_dups (chars "abbcccc")) < 256)%nat as Hfew
    by (vm_compute; lia).
  split; [exact Ht|]. split; [exact Hlen|]. split; [reflexivity|].
  split; [exact Hfew|].
  destruct (encoded_length_bound (Q := list Node) (chars "abbcccc") fresh
              Ht Hlen eq_refl) as (h' & bits & h'' & Hb & He & Hle & Hlt & _).
  exists h', bits, h''. split; [exact Hb|]. split; [exact He|].
  split; [exact Hle|exact (Hlt Hfew)].
Defined.

(** Why [encoded_length_bound] asks for an empty frequency table: after
    [buildTree(doubling_text)] the counts stay, and
    [buildTree("a"); encode("a")] gives 9 bits for one symbol. *)
Example encoded_length_after_earlier_text :
  exists h1 h2,
    buildTree (Q := list Node) doubling_text fresh = Returns h1
    /\ buildTree (Q := list Node) (chars "a") h1 = Returns h2
    /\ length (fst (encode (chars "a") h2)) = 9%nat.
Proof.
  exists (returned (buildTree (Q := list Node) doubling_text fresh)).
  exists (returned (buildTree (Q := list Node) (chars "a")
                      (returned (buildTree (Q := list Node) doubling_text fresh)))).
  by_running.
Qed.

(** ** Runs for the further properties *)

(** [roundtrip_two_or_more_symbols] on the text "abbcccc". *)
Lemma roundtrip_two_or_more_symbols_abbcccc :
  (2 <= size (count_frequencies (chars "abbcccc") (frequencies fresh)))%nat
  /\ exists h' bits,
       buildTree (Q := list Node) (chars "abbcccc") fresh = Returns h'
       /\ encode (chars "abbcccc") h' = (bits, h')
       /\ decode bits h' = Returns (chars "abbcccc").
Proof.
  assert (2 <= size (count_frequencies (chars "abbcccc") (frequencies fresh)))%nat
    as H2 by (vm_compute; lia).
  split; [exact H2|].
  exact (roundtrip_two_or_more_symbols (Q := list Node) (chars "abbcccc") fresh H2).
Defined.

(** The text of [main]. *)
Example roundtrip_main_text :
  let text := chars "Phetchaburi Rajabhat University" in
  let h := returned (buildTree (Q := list Node) text fresh) in
  buildTree (Q := list Node) text fresh = Returns h
  /\ decode (fst (encode text h)) h = Returns text
  /\ length (fst (encode text h)) = 124%nat.
Proof. by_running. Qed.

(** [buildTree_tree_shape] on the text "abbcccc". *)
Lemma buildTree_tree_shape_abbcccc :
  buildTree (Q := list Node) (chars "abbcccc") fresh = Returns codec_abbcccc
  /\ exists r,
       root codec_abbcccc = Some r /\ full r
       /\ List.NoDup (map leaf_symbol (leaves r))
       /\ forall c f, In (c, f) (map leaf_entry (leaves r))
                      <-> frequencies codec_abbcccc !! c = Some f.
Proof.
  split; [exact buildTree_abbcccc|].
  exact (buildTree_tree_shape (Q := list Node) (chars "abbcccc") fresh
           codec_abbcccc buildTree_abbcccc).
Defined.

(** [buildTree_counts_and_root] on the text "abbcccc". *)
Lemma buildTree_counts_and_root_abbcccc :
  chars "abbcccc" <> [] /\ Z.of_nat (length (chars "abbcccc")) < 2 ^ 31
  /\ frequencies fresh = ∅
  /\ exists h' r,
       buildTree (Q := list Node) (chars "abbcccc") fresh = Returns h'
       /\ root h' = Some r
       /\ (forall c, frequencies h' !! c
                     = if decide (c ∈ chars "abbcccc")
                       then Some (occurrences c (chars "abbcccc")) else None)
       /\ (forall c, c ∈ chars "abbcccc" -> 1 <= occurrences c (chars "abbcccc"))
       /\ frequency r = Z.of_nat (length (chars "abbcccc")).
Proof.
  assert (chars "abbcccc" <> []) as Ht by discriminate.
  assert (Z.of_nat (length (chars "abbcccc")) < 2 ^ 31) as Hlen by (simpl; lia).
  split; [exact Ht|]. split; [exact Hlen|]. split; [reflexivity|].
  exact (buildTree_counts_and_root (Q := list Node) (chars "abbcccc") fresh
           Ht Hlen eq_refl).
Defined.

(** Code lengths for "abbcccc": one bit for 'c', two for the others. *)
Definition lengths_abbcccc (c : ascii) : nat :=
  if Ascii.eqb c "c" then 1%nat else 2%nat.

(** [encoded_length_minimal] on the text "abbcccc" and these lengths,
    which the code of [buildTree] attains: 10 bits. *)
Lemma encoded_length_minimal_abbcccc :
  chars "abbcccc" <> [] /\ Z.of_nat (length (chars "abbcccc")) < 2 ^ 31
  /\ frequencies fresh = ∅
  /\ (forall c, c ∈ chars "abbcccc" -> (1 <= lengths_abbcccc c <= 2)%nat)
  /\ kraft 2 (map lengths_abbcccc (remove_dups (chars "abbcccc"))) <= pow2 2
  /\ exists h' bits h'',
       buildTree (Q := list Node) (chars "abbcccc") fresh = Returns h'
       /\ encode (chars "abbcccc") h' = (bits, h'')
       /\ Z.of_nat (length bits)
          <= total (map (fun c => Z.of_nat (lengths_abbcccc c)) (chars "abbcccc")).
Proof.
  assert (chars "abbcccc" <> []) as Ht by discriminate.
  assert (Z.of_nat (length (chars "abbcccc")) < 2 ^ 31) as Hlen by (simpl; lia).
  assert (forall c, c ∈ chars "abbcccc" -> (1 <= lengths_abbcccc c <= 2)%nat) as Hl.
  { intros c _. unfold lengths_abbcccc. destruct (Ascii.eqb c "c"); lia. }
  assert (kraft 2 (map lengths_abbcccc (remove_dups (chars "abbcccc"))) <= pow2 2)
    as Hk by (vm_compute; discriminate).
  split; [exact Ht|]. split; [exact Hlen|]. split; [reflexivity|].
  split; [exact Hl|]. split; [exact Hk|].
  exact (encoded_length_minimal (Q := list Node) (chars "abbcccc") fresh
           lengths_abbcccc 2 Ht Hlen eq_refl Hl Hk).
Defined.

Example total_lengths_abbcccc :
  total (map (fun c => Z.of_nat (lengths_abbcccc c)) (chars "abbcccc")) = 10
  /\ length (fst (encode (chars "abbcccc") codec_abbcccc)) = 10%nat.
Proof. by_running. Qed.

(** [merge_loop_result] on a queue of two leaves. *)
Lemma merge_loop_result_two_leaves :
  let q := [newLeaf "a" 1; newLeaf "b" 2] in
  pq_elements q <> []
  /\ exists q' r,
       merge_loop (pq_size q) q = Some q' /\ pq_elements q' = [r]
       /\ Permutation (map leaf_entry (leaves r)) (forest_entries (pq_elements q))
       /\ (Forall full (pq_elements q) -> full r).
Proof.
  intros q.
  assert (pq_elements q <> []) as Hq by discriminate.
  split; [exact Hq|].
  exact (merge_loop_result (Q := list Node) q Hq).
Defined.

(** [buildTree_codes_are_bits] on the text "abbcccc". *)
Lemma buildTree_codes_are_bits_abbcccc :
  buildTree (Q := list Node) (chars "abbcccc") fresh = Returns codec_abbcccc
  /\ (forall c, is_Some (frequencies codec_abbcccc !! c) ->
        exists p, codes codec_abbcccc !! c = Some p /\ p <> [] /\ Forall is_bit p)
  /\ (forall t, Forall (fun c => is_Some (frequencies codec_abbcccc !! c)) t ->
        Forall is_bit (fst (encode t codec_abbcccc))).
Proof.
  split; [exact buildTree_abbcccc|].
  exact (buildTree_codes_are_bits (Q := list Node) (chars "abbcccc") fresh
           codec_abbcccc buildTree_abbcccc).
Defined.

(** [buildTree_code_table_symbols] on the text "abbcccc". *)
Lemma buildTree_code_table_symbols_abbcccc :
  chars "abbcccc" <> [] /\ frequencies fresh = ∅ /\ codes fresh = ∅
  /\ exists h',
       buildTree (Q := list Node) (chars "abbcccc") fresh = Returns h'
       /\ forall c, is_Some (codes h' !! c) <-> c ∈ chars "abbcccc".
Proof.
  assert (chars "abbcccc" <> []) as Ht by discriminate.
  split; [exact Ht|]. split; [reflexivity|]. split; [reflexivity|].
  exact (buildTree_code_table_symbols (Q := list Node) (chars "abbcccc") fresh
           Ht eq_refl eq_refl).
Defined.

(** [decode_returns] on the text "abbcccc". *)
Lemma decode_returns_abbcccc :
  (2 <= size (count_frequencies (chars "abbcccc") (frequencies fresh)))%nat
  /\ exists h',
       buildTree (Q := list Node) (chars "abbcccc") fresh = Returns h'
       /\ forall encoded,
            exists decoded,
              decode encoded h' = Returns decoded
              /\ (length decoded <= length encoded)%nat
              /\ Forall (fun c => is_Some (frequencies h' !! c)) decoded.
Proof.
  assert (2 <= size (count_frequencies (chars "abbcccc") (frequencies fresh)))%nat
    as H2 by (vm_compute; lia).
  split; [exact H2|].
  exact (decode_returns (Q := list Node) (chars "abbcccc") fresh H2).
Defined.

(** [decode_codes_then_rest] on the text "abbcccc". *)
Lemma decode_codes_then_rest_abbcccc :
  (2 <= size (count_frequencies (chars "abbcccc") (frequencies fresh)))%nat
  /\ exists h',
       buildTree (Q := list Node) (chars "abbcccc") fresh = Returns h'
       /\ forall syms rest,
            Forall (fun a => is_Some (frequencies h' !! a)) syms ->
            exists decoded,
              decode rest h' = Returns decoded
              /\ decode (flat_map (code_of (codes h')) syms ++ rest) h'
                 = Returns (syms ++ decoded).
Proof.
  assert (2 <= size (count_frequencies (chars "abbcccc") (frequencies fresh)))%nat
    as H2 by (vm_compute; lia).
  split; [exact H2|].
  exact (decode_codes_then_rest (Q := list Node) (chars "abbcccc") fresh H2).
Defined.

(** What [printCodes] writes after [buildTree("abbcccc")], in the order
    of [canonical_codes_iteration]. *)
Example printCodes_abbcccc :
  printCodes codec_abbcccc
  = ([newline] ++ chars "Generated Huffman Codes:" ++ [newline]
     ++ chars "Character | Frequency | Code" ++ [newline]
     ++ chars "----------|-----------|--------" ++ [newline]
     ++ chars "    c     |        4  |  1" ++ [newline]
     ++ chars "    a     |        1  |  00" ++ [newline]
     ++ chars "    b     |        2  |  01" ++ [newline],
     codec_abbcccc).
Proof. by_running. Qed.

(** [encode("z")], [printCodes()], [buildTree("")] after
    [buildTree("abb")]: [encode] leaves 'z' in the code table,
    [printCodes] gives it the count 0, and [buildTree] then puts it in
    the tree. *)
Example printCodes_counts_unknown_symbol :
  let h1 := snd (encode (chars "z") codec_abb) in
  let h2 := snd (printCodes h1) in
  let h3 := returned (buildTree (Q := list Node) (chars "") h2) in
  frequencies h1 !! "z"%char = None
  /\ frequencies h2 !! "z"%char = Some 0
  /\ buildTree (Q := list Node) (chars "") h2 = Returns h3
  /\ codes h3 !! "z"%char = Some (chars "00").
Proof. by_running. Qed.
